(** * seedkit: checksum-word completion and input normalisation

    A shallow embedding of the helper functions of [main.go]
    ([convertWordsToShares], [readShareMnemonics], [bip39Entropy],
    [bip39ChecksumWords], [parseGroups]) together with the properties the
    design document states about them.

    Conventions.
    - A Go [string] is a sequence of bytes: it is a Rocq [string].
    - A Go [int] is 64 bits wide.  Every [int] computed below is a slice
      length, a small multiple of one, or a number below 2^12, so no
      operation wraps; lengths are [nat], other integers are [Z].
    - A [*big.Int] is a [Z]; the functions below only build non-negative ones.
    - A Go function returning [(T, error)] returns a [result T]; a run-time
      panic is an outcome of its own. *)

From Stdlib Require Import ZArith List String Ascii Bool Lia Arith.
Import ListNotations.

Local Open Scope string_scope.
Local Open Scope list_scope.

(** ** Outcomes *)

(** The errors built by the functions modelled here; every constructor
    carries the arguments of the [fmt.Errorf]/[errors.New] call. *)
Inductive error : Type :=
| ErrNoWords
    (* errors.New("no SLIP39 mnemonic words provided") *)
| ErrWordListLength (n : nat)
    (* "invalid SLIP39 word list length - %d is not a multiple of 33 or 20" *)
| ErrScanning (cause : string)
    (* "scanning input: %w" *)
| ErrInvalidWord (w : string)
    (* "invalid mnemonic word %q" *)
| ErrGroupDefinition (g : string)
    (* "invalid group definition: %q" *)
| ErrGroupFormat (g : string) (limit : Z)
    (* "invalid group format: %q (not \"MofN\", M <= N, N <= %d)" *).

(** Run-time panics of the Go runtime and of [math/big]. *)
Inductive panic : Type :=
| IndexOutOfRange      (* s[i] with i >= len(s) *)
| SliceOutOfRange      (* s[i:j] with j > len(s) *)
| NegativeShift        (* x >> n with n < 0 *)
| BufferTooSmall       (* big.Int.FillBytes: value does not fit the buffer *)
| AllocationTooLarge   (* big.Int.Lsh by an amount beyond any allocation *).

Inductive result (A : Type) : Type :=
| Ok (a : A)          (* returns (a, nil) *)
| Err (e : error)     (* returns (nil, e) *)
| Panic (p : panic)   (* the goroutine panics *)
| OutOfFuel           (* iteration budget of the model exhausted; never
                         produced by the top-level functions, see
                         [convertWordsToShares_total] *).
Arguments Ok {A} a.
Arguments Err {A} e.
Arguments Panic {A} p.
Arguments OutOfFuel {A}.

Definition bind {A B} (r : result A) (k : A -> result B) : result B :=
  match r with
  | Ok a => k a
  | Err e => Err e
  | Panic p => Panic p
  | OutOfFuel => OutOfFuel
  end.

Notation "x <- r ;; k" := (bind r (fun x => k))
  (at level 61, r at next level, right associativity).

(** ** The [strings] package *)

Definition space : ascii := " "%char.

(** [strings.Join(elems, sep)] *)
Fixpoint Join (elems : list string) (sep : string) : string :=
  match elems with
  | [] => ""
  | [e] => e
  | e :: rest => e ++ sep ++ Join rest sep
  end.

(** [strings.HasPrefix(s, prefix)] *)
Fixpoint HasPrefix (s prefix : string) : bool :=
  match prefix, s with
  | EmptyString, _ => true
  | String a prefix', String b s' => Ascii.eqb a b && HasPrefix s' prefix'
  | String _ _, EmptyString => false
  end.

(** [strings.Contains(s, substr)] *)
Fixpoint Contains (s substr : string) : bool :=
  HasPrefix s substr ||
  match s with
  | EmptyString => false
  | String _ rest => Contains rest substr
  end.

(** [strings.Split(s, " ")]: the pieces of [s] between single spaces. *)
Fixpoint SplitSpace (s : string) : list string :=
  match s with
  | EmptyString => [EmptyString]
  | String c rest =>
      if Ascii.eqb c space then EmptyString :: SplitSpace rest
      else match SplitSpace rest with
           | w :: ws => String c w :: ws
           | [] => [String c EmptyString]
           end
  end.

(** A word: a string without a space. *)
Definition spaceFree (w : string) : Prop :=
  forall c, In c (list_ascii_of_string w) -> c <> space.

(** [s[i:j]] for a slice [s] (without spare capacity). *)
Definition slice {A} (s : list A) (i j : nat) : result (list A) :=
  if ((i <=? j) && (j <=? List.length s))%nat
  then Ok (firstn (j - i) (skipn i s))
  else Panic SliceOutOfRange.

(** ** [convertWordsToShares] *)

(** The loop
    [for i := 0; i < len(words); i += mlen { mnemonics = append(mnemonics,
    strings.Join(words[i:i+mlen], " ")) }], started at [i] with the
    shares gathered so far. *)
Fixpoint convertLoop (fuel : nat) (words : list string) (mlen i : nat)
    (mnemonics : list string) : result (list string) :=
  match fuel with
  | O => OutOfFuel
  | S fuel' =>
      if (i <? List.length words)%nat then
        chunk <- slice words i (i + mlen) ;;
        convertLoop fuel' words mlen (i + mlen) (mnemonics ++ [Join chunk " "])
      else Ok mnemonics
  end.

Definition convertWordsToShares (words : list string) : result (list string) :=
  if (List.length words =? 0)%nat then Err ErrNoWords
  else
    let mlen :=
      if (List.length words mod 33 =? 0)%nat then 33%nat
      else if (List.length words mod 20 =? 0)%nat then 20%nat
      else 0%nat in
    if (mlen =? 0)%nat then Err (ErrWordListLength (List.length words))
    else convertLoop (S (List.length words)) words mlen 0 [].

(** [shares] is [words] cut into consecutive chunks of [mlen] words, each
    chunk joined with single spaces, in the order of [words]. *)
Definition partitioned (mlen : nat) (words shares : list string) : Prop :=
  exists chunks,
    List.concat chunks = words /\
    Forall (fun c => List.length c = mlen) chunks /\
    shares = map (fun c => Join c " ") chunks.

(** ** [parseGroups] *)

Definition GroupLimit : Z := 16.

(** [slip39.MemberGroupParameters] *)
Record MemberGroupParameters : Type := mkGroup {
  MemberThreshold : Z;
  MemberCount : Z
}.

(** [\d] of Go's regexp syntax: an ASCII decimal digit. *)
Definition isDigit (c : ascii) : bool :=
  ((48 <=? nat_of_ascii c) && (nat_of_ascii c <=? 57))%nat.

(** [\d{1,2}] at the start of [s], greedy: the digits matched and the rest.
    What follows the group in [reGroup] is never a digit, so a match that
    exists is found without backtracking. *)
Definition matchDigits (s : string) : option (string * string) :=
  match s with
  | EmptyString => None
  | String c1 rest1 =>
      if isDigit c1 then
        match rest1 with
        | String c2 rest2 =>
            if isDigit c2 then Some (String c1 (String c2 EmptyString), rest2)
            else Some (String c1 EmptyString, rest1)
        | EmptyString => Some (String c1 EmptyString, rest1)
        end
      else None
  end.

(** The literal [p] at the start of [s]: what follows it. *)
Fixpoint stripPrefix (p s : string) : option string :=
  match p, s with
  | EmptyString, _ => Some s
  | String a p', String b s' =>
      if Ascii.eqb a b then stripPrefix p' s' else None
  | String _ _, EmptyString => None
  end.

(** [reGroup.FindStringSubmatch(g)] for
    [reGroup = regexp.MustCompile(`^(\d{1,2})of(\d{1,2})$`)]: the two
    captured groups, or [None] for a [nil] result. *)
Definition FindStringSubmatch (g : string) : option (string * string) :=
  match matchDigits g with
  | Some (m1, rest1) =>
      match stripPrefix "of" rest1 with
      | Some rest2 =>
          match matchDigits rest2 with
          | Some (m2, EmptyString) => Some (m1, m2)
          | _ => None
          end
      | None => None
      end
  | None => None
  end.

(** [strconv.Atoi] on a string of decimal digits (the only strings
    [parseGroups] passes to it; the error result is discarded there). *)
Definition digitVal (c : ascii) : Z := Z.of_nat (nat_of_ascii c) - 48.

Fixpoint atoiFrom (acc : Z) (s : string) : Z :=
  match s with
  | EmptyString => acc
  | String c rest => atoiFrom (acc * 10 + digitVal c) rest
  end.

Definition Atoi (s : string) : Z := atoiFrom 0 s.

Fixpoint parseGroupsLoop (groupstr : list string)
    (groups : list MemberGroupParameters)
    : result (list MemberGroupParameters) :=
  match groupstr with
  | [] => Ok groups
  | g :: rest =>
      match FindStringSubmatch g with
      | None => Err (ErrGroupDefinition g)
      | Some (m1, m2) =>
          let t := Atoi m1 in
          let n := Atoi m2 in
          if (t >? GroupLimit)%Z || (n >? GroupLimit)%Z || (t >? n)%Z
          then Err (ErrGroupFormat g GroupLimit)
          else parseGroupsLoop rest (groups ++ [mkGroup t n])
      end
  end.

Definition parseGroups (groupstr : list string)
    : result (list MemberGroupParameters) :=
  parseGroupsLoop groupstr [].

(** A string of one or two decimal digits. *)
Definition digitGroup (s : string) : Prop :=
  (exists c, s = String c EmptyString /\ isDigit c = true) \/
  (exists c d, s = String c (String d EmptyString) /\
               isDigit c = true /\ isDigit d = true).

(** [g] is [a], the letters "of", then [b], with [a] and [b] of one or two
    digits: the language of [reGroup], with its two groups. *)
Definition matchesMofN (g a b : string) : Prop :=
  g = (a ++ "of" ++ b)%string /\ digitGroup a /\ digitGroup b.

(** A token [parseGroups] must refuse: it is not of the "MofN" form, or
    its threshold or its count exceeds the limit, or its threshold exceeds
    its count. *)
Definition offending (g : string) : Prop :=
  (~ exists a b, matchesMofN g a b) \/
  (exists a b, matchesMofN g a b /\
     (Atoi a > GroupLimit \/ Atoi b > GroupLimit \/ Atoi a > Atoi b)%Z).

(** The pair a well-formed token denotes. *)
Definition denotes (g : string) (p : MemberGroupParameters) : Prop :=
  exists a b, matchesMofN g a b /\
    MemberThreshold p = Atoi a /\ MemberCount p = Atoi b.

(** ** Bytes and big-endian integers *)

Local Open Scope Z_scope.

(** The [n]-byte big-endian rendering of [x] (of [x mod 256^n]); a byte is
    a [Z] in [0, 256). *)
Fixpoint bigEndian (n : nat) (x : Z) : list Z :=
  match n with
  | O => []
  | S k => bigEndian k (x / 256) ++ [x mod 256]
  end.

(** [s[i]] for an [int] index. *)
Definition index {A} (s : list A) (i : Z) : result A :=
  if i <? 0 then Panic IndexOutOfRange
  else match nth_error s (Z.to_nat i) with
       | Some a => Ok a
       | None => Panic IndexOutOfRange
       end.

(** ** SHA-256 ([crypto/sha256], FIPS 180-4) on 32-bit words held in [Z] *)
Module Sha256.

Definition mask32 : Z := 4294967295.
Definition wrap32 (x : Z) : Z := Z.land x mask32.
Definition add32 (x y : Z) : Z := wrap32 (x + y).
Definition rotr (n x : Z) : Z :=
  wrap32 (Z.lor (Z.shiftr x n) (Z.shiftl x (32 - n))).
Definition Ch (x y z : Z) : Z :=
  Z.lxor (Z.land x y) (Z.land (Z.lxor x mask32) z).
Definition Maj (x y z : Z) : Z :=
  Z.lxor (Z.lxor (Z.land x y) (Z.land x z)) (Z.land y z).
Definition bigSigma0 (x : Z) : Z :=
  Z.lxor (Z.lxor (rotr 2 x) (rotr 13 x)) (rotr 22 x).
Definition bigSigma1 (x : Z) : Z :=
  Z.lxor (Z.lxor (rotr 6 x) (rotr 11 x)) (rotr 25 x).
Definition smallSigma0 (x : Z) : Z :=
  Z.lxor (Z.lxor (rotr 7 x) (rotr 18 x)) (Z.shiftr x 3).
Definition smallSigma1 (x : Z) : Z :=
  Z.lxor (Z.lxor (rotr 17 x) (rotr 19 x)) (Z.shiftr x 10).

(** The round constants and the initial hash value. *)
Definition K : list Z :=
  [ 1116352408; 1899447441; 3049323471; 3921009573; 961987163; 1508970993;
    2453635748; 2870763221; 3624381080; 310598401; 607225278; 1426881987;
    1925078388; 2162078206; 2614888103; 3248222580; 3835390401; 4022224774;
    264347078; 604807628; 770255983; 1249150122; 1555081692; 1996064986;
    2554220882; 2821834349; 2952996808; 3210313671; 3336571891; 3584528711;
    113926993; 338241895; 666307205; 773529912; 1294757372; 1396182291;
    1695183700; 1986661051; 2177026350; 2456956037; 2730485921; 2820302411;
    3259730800; 3345764771; 3516065817; 3600352804; 4094571909; 275423344;
    430227734; 506948616; 659060556; 883997877; 958139571; 1322822218;
    1537002063; 1747873779; 1955562222; 2024104815; 2227730452; 2361852424;
    2428436474; 2756734187; 3204031479; 3329325298 ].

Definition init : list Z :=
  [ 1779033703; 3144134277; 1013904242; 2773480762;
    1359893119; 2600822924; 528734635; 1541459225 ].

(** Padding: a 1 bit, zeros up to 56 modulo 64 bytes, the bit length on
    8 bytes. *)
Definition pad (msg : list Z) : list Z :=
  let len := List.length msg in
  let zeros := ((119 - len mod 64) mod 64)%nat in
  msg ++ [128] ++ repeat 0 zeros ++ bigEndian 8 (8 * Z.of_nat len).

Fixpoint toWords (bs : list Z) : list Z :=
  match bs with
  | a :: b :: c :: d :: rest =>
      (a * 16777216 + b * 65536 + c * 256 + d) :: toWords rest
  | _ => []
  end.

(** The message schedule: [n] more words after those of [w]. *)
Fixpoint schedule (n : nat) (w : list Z) : list Z :=
  match n with
  | O => w
  | S n' =>
      let t := List.length w in
      let x :=
        add32 (add32 (add32 (smallSigma1 (nth (t - 2) w 0)) (nth (t - 7) w 0))
                     (smallSigma0 (nth (t - 15) w 0)))
              (nth (t - 16) w 0) in
      schedule n' (w ++ [x])
  end.

Definition round (st : list Z) (kw : Z * Z) : list Z :=
  match st with
  | [a; b; c; d; e; f; g; h] =>
      let t1 :=
        add32 (add32 (add32 (add32 h (bigSigma1 e)) (Ch e f g)) (fst kw))
              (snd kw) in
      let t2 := add32 (bigSigma0 a) (Maj a b c) in
      [add32 t1 t2; a; b; c; add32 d t1; e; f; g]
  | _ => st
  end.

Definition compress (h : list Z) (block : list Z) : list Z :=
  let w := schedule 48 block in
  let st := fold_left round (combine K w) h in
  map (fun p => add32 (fst p) (snd p)) (combine h st).

Fixpoint blocks (n : nat) (h : list Z) (ws : list Z) : list Z :=
  match n with
  | O => h
  | S n' => blocks n' (compress h (firstn 16 ws)) (skipn 16 ws)
  end.

(** [sha256.Sum256(msg)], also [h := sha256.New(); h.Write(msg); h.Sum(nil)]. *)
Definition sum256 (msg : list Z) : list Z :=
  let ws := toWords (pad msg) in
  flat_map (bigEndian 4) (blocks (List.length ws / 16) init ws).

End Sha256.

(** ** [bip39Entropy] and [bip39ChecksumWords] *)

Section Vocabulary.

(** [bip39.GetWordList()]: the vocabulary of the external mnemonic library,
    a table that is not part of this repository. *)
Variable wordlist : list string.

Fixpoint indexFrom (i : Z) (l : list string) (w : string) : option Z :=
  match l with
  | [] => None
  | v :: rest => if String.eqb v w then Some i else indexFrom (i + 1) rest w
  end.

(** [bip39.GetWordIndex(w)]: the position of [w] in the vocabulary, if any
    (the Word Index Codec's [indexOf]; the words of the table are distinct,
    so a word has one position). *)
Definition GetWordIndex (w : string) : option Z := indexFrom 0 wordlist w.

(** The [range] loop of [bip39Entropy], with the accumulator [i]. *)
Fixpoint bip39EntropyLoop (partialWords : list string) (i : Z) : result Z :=
  match partialWords with
  | [] => Ok i
  | w :: rest =>
      match GetWordIndex w with
      | None => Err (ErrInvalidWord w)
      | Some idx => bip39EntropyLoop rest (Z.lor (Z.shiftl i 11) idx)
      end
  end.

Definition bip39Entropy (partialWords : list string) : result Z :=
  bip39EntropyLoop partialWords 0.

(** [x.Lsh(x, uint(n))] for an [int] [n]: a negative [n] converts to a shift
    of at least 2^63 bits, which [math/big] performs on zero only. *)
Definition Lsh (x n : Z) : result Z :=
  if 0 <=? n then Ok (Z.shiftl x n)
  else if x =? 0 then Ok 0
  else Panic AllocationTooLarge.

(** [int(math.Pow(2, float64(n)))] for an [int] [n <= 11]: the power is
    exact in floating point, and a power below one truncates to zero. *)
Definition pow2int (n : Z) : Z := if 0 <=? n then 2 ^ n else 0.

(** [x.FillBytes(buf)] with [len(buf) = n], for [x >= 0]. *)
Definition FillBytes (x : Z) (n : nat) : result (list Z) :=
  if x <? 256 ^ Z.of_nat n then Ok (bigEndian n x)
  else Panic BufferTooSmall.

(** [x >> n] for [int]s [x >= 0] and [n]. *)
Definition shr (x n : Z) : result Z :=
  if n <? 0 then Panic NegativeShift else Ok (Z.shiftr x n).

(** The index computed by one pass of the loop body:
    [(i << checksumBits) + checksum]. *)
Definition checkwordIndex (checksumBits : Z) (entropySize : nat)
    (i entropyCandidate : Z) : result Z :=
  entropyBytes <- FillBytes entropyCandidate entropySize ;;
  let hash := Sha256.sum256 entropyBytes in
  h0 <- index hash 0 ;;
  checksum <- shr h0 (8 - checksumBits) ;;
  Ok (Z.shiftl i checksumBits + checksum).

(** [for i := range iterations { ... }] with [n] passes left; every pass
    ends with [entropyCandidate.Add(entropyCandidate, big.NewInt(1))]. *)
Fixpoint checksumLoop (n : nat) (checksumBits : Z) (entropySize : nat)
    (i entropyCandidate : Z) (checksums : list string)
    : result (list string) :=
  match n with
  | O => Ok checksums
  | S n' =>
      idx <- checkwordIndex checksumBits entropySize i entropyCandidate ;;
      checkword <- index wordlist idx ;;
      checksumLoop n' checksumBits entropySize (i + 1) (entropyCandidate + 1)
        (checksums ++ [checkword])
  end.

Definition bip39ChecksumWords (partialWords : list string)
    : result (list string) :=
  entropy <- bip39Entropy partialWords ;;
  let size := Z.of_nat (List.length partialWords) + 1 in
  let checksumBits := Z.quot size 3 in
  let entropySize := Z.quot (size * 11 - checksumBits) 8 in
  let entropyToFill := 11 - checksumBits in
  entropyBase <- Lsh entropy entropyToFill ;;
  let iterations := pow2int entropyToFill in
  checksumLoop (Z.to_nat iterations) checksumBits (Z.to_nat entropySize)
    0 entropyBase [].

(** The word index the design document gives for enumeration index [i]
    (section 4.2, steps b to d): the checksum [c] is the top [checksumBits]
    bits of the first byte of SHA-256 over the [entropySize]-byte rendering
    of [candidate], and the index is [(i << checksumBits) | c]. *)
Definition checksumOf (checksumBits : Z) (entropySize : nat) (candidate : Z)
    : Z :=
  Z.shiftr (nth 0 (Sha256.sum256 (bigEndian entropySize candidate)) 0)
           (8 - checksumBits).

Definition completionIndex (checksumBits : Z) (entropySize : nat)
    (i candidate : Z) : Z :=
  Z.lor (Z.shiftl i checksumBits)
        (checksumOf checksumBits entropySize candidate).

(** The checksum-bit equality check that stands for the external
    [isPhraseValid] (design document, section 8): the phrase packs into
    [entropyBits] bits of entropy followed by [checksumBits] bits, and these
    are the top [checksumBits] bits of the first byte of SHA-256 of the
    entropy bytes. *)
Definition checksumBitsMatch (phrase : list string) : bool :=
  match bip39Entropy phrase with
  | Ok packed =>
      let size := Z.of_nat (List.length phrase) in
      let checksumBits := size / 3 in
      let entropySize := Z.to_nat ((size * 11 - checksumBits) / 8) in
      let entropy := Z.shiftr packed checksumBits in
      let trailing := Z.land packed (Z.ones checksumBits) in
      let hash := Sha256.sum256 (bigEndian entropySize entropy) in
      trailing =? Z.shiftr (nth 0 hash 0) (8 - checksumBits)
  | _ => false
  end.

(** What pass [i] of the loop does on candidate [cand]: the index is the
    one of the design document, it is below 2048, and the lookup gives [w]. *)
Definition passOk (cs : Z) (es : nat) (i cand : Z) (w : string) : Prop :=
  checkwordIndex cs es i cand = Ok (completionIndex cs es i cand) /\
  0 <= completionIndex cs es i cand < 2048 /\
  index wordlist (completionIndex cs es i cand) = Ok w /\
  nth_error wordlist (Z.to_nat (completionIndex cs es i cand)) = Some w.

End Vocabulary.

(** ** [readShareMnemonics] *)

(** ASCII instances of the two library functions, exact on ASCII text. *)
Definition asciiLower (c : ascii) : ascii :=
  let n := nat_of_ascii c in
  if ((65 <=? n) && (n <=? 90))%nat then ascii_of_nat (n + 32) else c.

Fixpoint asciiToLower (s : string) : string :=
  match s with
  | EmptyString => EmptyString
  | String c rest => String (asciiLower c) (asciiToLower rest)
  end.

Definition asciiSpace (c : ascii) : bool :=
  let n := nat_of_ascii c in
  (((9 <=? n) && (n <=? 13)) || (n =? 32))%nat.

Fixpoint trimLeft (s : string) : string :=
  match s with
  | EmptyString => EmptyString
  | String c rest => if asciiSpace c then trimLeft rest else s
  end.

Fixpoint trimRight (s : string) : string :=
  match s with
  | EmptyString => EmptyString
  | String c rest =>
      match trimRight rest with
      | EmptyString =>
          if asciiSpace c then EmptyString else String c EmptyString
      | kept => String c kept
      end
  end.

Definition asciiTrimSpace (s : string) : string := trimRight (trimLeft s).


Definition newline : ascii := ascii_of_nat 10.
Definition carriageReturn : ascii := ascii_of_nat 13.

(** [dropCR] of [bufio]: one trailing carriage return is removed. *)
Fixpoint dropCR (line : string) : string :=
  match line with
  | EmptyString => EmptyString
  | String c EmptyString =>
      if Ascii.eqb c carriageReturn then EmptyString else line
  | String c rest => String c (dropCR rest)
  end.

(** The tokens [bufio.ScanLines] cuts from [data], [line] being the bytes
    of the current line read so far. *)
Fixpoint scanFrom (data line : string) : list string :=
  match data with
  | EmptyString =>
      match line with
      | EmptyString => []
      | _ => [dropCR line]
      end
  | String c rest =>
      if Ascii.eqb c newline then dropCR line :: scanFrom rest EmptyString
      else scanFrom rest (line ++ String c EmptyString)
  end.

(** What a [bufio.Scanner] makes of a reader: the successive values of
    [scanner.Text()] and the final [scanner.Err()]. *)
Record LineSource : Type := mkSource {
  lines : list string;
  failure : option string
}.

(** A reader that delivers [data] without failing (lines within the
    scanner's buffer). *)
Definition sourceOf (data : string) : LineSource :=
  mkSource (scanFrom data EmptyString) None.

Record Context : Type := mkContext {
  reader : LineSource   (* ctx.reader, or os.Stdin when it is nil *)
}.

Section Normaliser.

(** [strings.ToLower] and [strings.TrimSpace] of the Go library, both
    Unicode-aware. *)
Variable ToLower : string -> string.
Variable TrimSpace : string -> string.

Definition readShareMnemonics (ctx : Context) (args : list string)
    : result (list string) :=
  let mnemonics :=
    if ((0 <? List.length args) && (List.length args <? 20))%nat then
      fold_left (fun ms m => ms ++ [ToLower m]) args []
    else if (20 <=? List.length args)%nat then
      [ToLower (Join args " ")]
    else [] in
  mnemonics <-
    (if (List.length mnemonics =? 0)%nat then
       let scanned :=
         fold_left (fun ms text => ms ++ [ToLower (TrimSpace text)])
           (lines (reader ctx)) mnemonics in
       match failure (reader ctx) with
       | Some cause => Err (ErrScanning cause)
       | None => Ok scanned
       end
     else Ok mnemonics) ;;
  first <- index mnemonics 0 ;;
  if negb (Contains (TrimSpace first) " ") then
    convertWordsToShares mnemonics
  else Ok mnemonics.

(** The entry, surrounding whitespace apart, holds no whitespace byte. *)
Definition internalWhitespaceFree (entry : string) : Prop :=
  forall c, In c (list_ascii_of_string (TrimSpace entry)) ->
            asciiSpace c = false.

(** [r] is what the last step of [readShareMnemonics] makes of the
    assembled [entries]: the converted word list when the first entry has
    no space inside, the entries themselves when it has one. *)
Definition rerouted (entries : list string) (r : result (list string))
    : Prop :=
  forall first rest,
    entries = first :: rest ->
    (internalWhitespaceFree first -> r = convertWordsToShares entries) /\
    (Contains (TrimSpace first) " " = false ->
     r = convertWordsToShares entries) /\
    (Contains (TrimSpace first) " " = true -> r = Ok entries).

End Normaliser.

(** A stand-in vocabulary of 2048 distinct three-letter words, for running
    the model where the real table is out of reach. *)
Definition sampleWord (n : nat) : string :=
  String (ascii_of_nat (97 + n / 256))
    (String (ascii_of_nat (97 + (n / 16) mod 16))
       (String (ascii_of_nat (97 + n mod 16)) EmptyString)).

Definition sampleWordlist : list string := map sampleWord (seq 0 2048).

(** Boolean tests for running the vocabulary hypotheses on a table. *)
Fixpoint distinctb (l : list string) : bool :=
  match l with
  | [] => true
  | x :: rest => negb (existsb (String.eqb x) rest) && distinctb rest
  end.

Definition allKnownb (vocabulary words : list string) : bool :=
  forallb (fun w => existsb (String.eqb w) vocabulary) words.

(** Thirty-three shares of twenty words each. *)
Definition shares33x20 : list string :=
  map (fun k => Join (repeat (sampleWord k) 20) " ") (seq 0 33).

(** ** [readSeedMnemonic] and the [bc] command *)

(** [\s] of Go's regexp syntax: tab, newline, form feed, carriage return
    and space. *)
Definition reSpace (c : ascii) : bool :=
  let n := nat_of_ascii c in
  ((n =? 9) || (n =? 10) || (n =? 12) || (n =? 13) || (n =? 32))%nat.

(** [reWhitespace.ReplaceAllString(s, " ")] for
    [reWhitespace = regexp.MustCompile(`\s+`)]: every maximal run of [\s]
    bytes becomes one space.  [inRun] tells that the byte before [s]
    belongs to a run already replaced. *)
Fixpoint collapseFrom (inRun : bool) (s : string) : string :=
  match s with
  | EmptyString => EmptyString
  | String c rest =>
      if reSpace c then
        if inRun then collapseFrom true rest
        else String space (collapseFrom true rest)
      else String c (collapseFrom false rest)
  end.

Definition ReplaceAllWhitespace (s : string) : string := collapseFrom false s.

(** What [io.ReadAll] makes of a reader: its content, or a failure. *)
Record ByteSource : Type := mkBytes {
  content : string;
  readFailure : option string
}.

(** The errors of the [bc] command. *)
Inductive cmdError : Type :=
| ErrReadingStdin (cause : string)
    (* "reading stdin: %w" *)
| ErrReadingMnemonic (inner : cmdError)
    (* "reading mnemonic: %w" *)
| ErrNoSeed
    (* errors.New("no mnemonic seed provided") *)
| ErrSeedLength (n : nat)
    (* "invalid mnemonic seed length %d (must be 11 or 23)" *)
| ErrFromHelper (e : error)
    (* the error of bip39ChecksumWords, returned as it is *)
| ErrGeneratedInvalid (seed : string)
    (* "generated invalid mnemonic: %q" *).

(** How a command ends. *)
Inductive exit : Type :=
| Returned (err : option cmdError)   (* return err, nil for success *)
| Panicked (p : panic)               (* a panic of the runtime or math/big *)
| IntnPanicked                       (* rand.Intn(n) with n <= 0 *)
| Unfinished                         (* iteration budget of the model *).

(** A run of a command: the lines given to [fmt.Fprintln(ctx.writer, ...)],
    in order, and the way the command ends. *)
Record run : Type := mkRun {
  written : list string;
  ending : exit
}.

(** [BipCheckwordCmd] *)
Record BipCheckwordCmd : Type := mkBipCheckword {
  Multi : bool;
  Word : bool;
  Deterministic : bool;
  PartialMnemonic : list string
}.

(** A text of words separated by single spaces, without other whitespace
    of the [\s] class. *)
Definition singleSpaced (s : string) : Prop :=
  (forall c, In c (list_ascii_of_string s) -> reSpace c = true -> c = space) /\
  Contains s "  " = false.

Section Commands.

Variable wordlist : list string.

(** [strings.TrimSpace], [strings.Fields], [bip39.IsMnemonicValid] and the
    draws of [rand.Intn]: library code, taken as it comes. *)
Variable TrimSpace : string -> string.
Variable Fields : string -> list string.
Variable IsMnemonicValid : string -> bool.
Variable Intn : nat -> nat.

Definition readStdinSeedMnemonic (src : ByteSource) : cmdError + string :=
  match readFailure src with
  | Some cause => inl (ErrReadingStdin cause)
  | None => inr (ReplaceAllWhitespace (TrimSpace (content src)))
  end.

Definition readSeedMnemonic (src : ByteSource) (args : list string)
    : cmdError + string :=
  if (0 <? List.length args)%nat then inr (Join args " ")
  else readStdinSeedMnemonic src.

(** [strings.Join(append(partialWords, w), " ")] *)
Definition seedWith (partialWords : list string) (w : string) : string :=
  Join (partialWords ++ [w]) " ".

(** The validation loop of the [Multi] branch: the first seed
    [bip39.IsMnemonicValid] refuses, if any. *)
Fixpoint firstInvalid (partialWords checksumWords : list string)
    : option string :=
  match checksumWords with
  | [] => None
  | w :: rest =>
      if IsMnemonicValid (seedWith partialWords w)
      then firstInvalid partialWords rest
      else Some (seedWith partialWords w)
  end.

(** The output loop of the [Multi] branch, after the lines [out]. *)
Fixpoint outputLoop (word : bool) (partialWords checksumWords : list string)
    (out : list string) : list string :=
  match checksumWords with
  | [] => out
  | w :: rest =>
      outputLoop word partialWords rest
        (out ++ [if word then w else seedWith partialWords w])
  end.

(** [BipCheckwordCmd.Run] *)
Definition BipCheckwordRun (cmd : BipCheckwordCmd) (src : ByteSource) : run :=
  match readSeedMnemonic src (PartialMnemonic cmd) with
  | inl e => mkRun [] (Returned (Some (ErrReadingMnemonic e)))
  | inr mnemonic =>
      let partialWords := Fields mnemonic in
      if (List.length partialWords =? 0)%nat then
        mkRun [] (Returned (Some ErrNoSeed))
      else if negb (List.length partialWords =? 11)%nat
              && negb (List.length partialWords =? 23)%nat then
        mkRun [] (Returned (Some (ErrSeedLength (List.length partialWords))))
      else
        match bip39ChecksumWords wordlist partialWords with
        | Err e => mkRun [] (Returned (Some (ErrFromHelper e)))
        | Panic p => mkRun [] (Panicked p)
        | OutOfFuel => mkRun [] Unfinished
        | Ok checksumWords =>
            if Multi cmd then
              match firstInvalid partialWords checksumWords with
              | Some seed =>
                  mkRun [] (Returned (Some (ErrGeneratedInvalid seed)))
              | None =>
                  mkRun (outputLoop (Word cmd) partialWords checksumWords [])
                        (Returned None)
              end
            else
              let draw :=
                if Deterministic cmd then Some 0%nat
                else if (List.length checksumWords =? 0)%nat then None
                else Some (Intn (List.length checksumWords)) in
              match draw with
              | None => mkRun [] IntnPanicked
              | Some i =>
                  match index checksumWords (Z.of_nat i) with
                  | Ok checkword =>
                      let seed := seedWith partialWords checkword in
                      if IsMnemonicValid seed then
                        mkRun [if Word cmd then checkword else seed]
                              (Returned None)
                      else
                        mkRun [] (Returned (Some (ErrGeneratedInvalid seed)))
                  | Panic p => mkRun [] (Panicked p)
                  | Err e => mkRun [] (Returned (Some (ErrFromHelper e)))
                  | OutOfFuel => mkRun [] Unfinished
                  end
              end
        end
  end.

(** What the library's validity check is for phrases of known words: the
    checksum-bit check. *)
Definition validityIsChecksum : Prop :=
  forall phrase,
    Forall (fun w => In w wordlist) phrase ->
    List.length phrase = 12%nat \/ List.length phrase = 24%nat ->
    IsMnemonicValid (Join phrase " ") = checksumBitsMatch wordlist phrase.

End Commands.

(** [strings.Fields] on ASCII text: the maximal runs without ASCII
    whitespace; [cur] is the field read so far. *)
Fixpoint fieldsFrom (s cur : string) : list string :=
  match s with
  | EmptyString =>
      match cur with
      | EmptyString => []
      | _ => [cur]
      end
  | String c rest =>
      if asciiSpace c then
        match cur with
        | EmptyString => fieldsFrom rest EmptyString
        | _ => cur :: fieldsFrom rest EmptyString
        end
      else fieldsFrom rest (cur ++ String c EmptyString)
  end.

Definition asciiFields (s : string) : list string := fieldsFrom s EmptyString.

(** A validity check on the sample table: every word known, and the
    checksum bits matching. *)
Definition sampleIsValid (s : string) : bool :=
  allKnownb sampleWordlist (SplitSpace s)
  && checksumBitsMatch sampleWordlist (SplitSpace s).

(** ** Proof automation *)

(** Reduces the choice of the share length once the tests are decided. *)
Ltac pick_size :=
  cbv zeta;
  change (0 =? 0) with true;
  change (33 =? 0) with false;
  change (20 =? 0) with false;
  cbv iota.

(** * Properties *)

(** ** Group specifications *)

Example parseGroups_2of3 :
  parseGroups ["2of3"] = Ok [mkGroup 2 3].
Proof. reflexivity. Qed.

Example parseGroups_17of20 :
  parseGroups ["17of20"] = Err (ErrGroupFormat "17of20" 16).
Proof. reflexivity. Qed.

Example parseGroups_3of2 :
  parseGroups ["1of1"; "3of2"; "junk"] = Err (ErrGroupFormat "3of2" 16).
Proof. reflexivity. Qed.

Example parseGroups_junk :
  parseGroups ["2of3"; "2 of 3"] = Err (ErrGroupDefinition "2 of 3").
Proof. reflexivity. Qed.

Lemma stripPrefix_spec (p s r : string) :
  stripPrefix p s = Some r <-> s = (p ++ r)%string.
Proof.
  revert s; induction p as [|a p IH]; intros s; simpl.
  - split; intros H; [injection H as ->; reflexivity | now subst].
  - destruct s as [|b s].
    + split; discriminate.
    + destruct (Ascii.eqb a b) eqn:E.
      * apply Ascii.eqb_eq in E; subst b. rewrite IH.
        split; intros H; [now subst | now injection H].
      * apply Ascii.eqb_neq in E.
        split; [discriminate | intros H; injection H; congruence].
Qed.

Lemma isDigit_o : isDigit "o" = false.
Proof. reflexivity. Qed.

Lemma matchDigits_one (c : ascii) (rest : string) :
  isDigit c = true ->
  (forall d rest', rest = String d rest' -> isDigit d = false) ->
  matchDigits (String c rest) = Some (String c EmptyString, rest).
Proof.
  intros Hc Hrest; simpl; rewrite Hc.
  destruct rest as [|d rest']; [reflexivity|].
  now rewrite (Hrest d rest' eq_refl).
Qed.

Lemma matchDigits_two (c d : ascii) (rest : string) :
  isDigit c = true -> isDigit d = true ->
  matchDigits (String c (String d rest))
  = Some (String c (String d EmptyString), rest).
Proof. intros Hc Hd; simpl; now rewrite Hc, Hd. Qed.

Lemma matchDigits_sound (s m rest : string) :
  matchDigits s = Some (m, rest) -> s = (m ++ rest)%string /\ digitGroup m.
Proof.
  unfold matchDigits, digitGroup.
  destruct s as [|c1 rest1]; [discriminate|].
  destruct (isDigit c1) eqn:H1; [|discriminate].
  destruct rest1 as [|c2 rest2].
  - intros H; injection H as <- <-; split; [reflexivity|].
    left; now exists c1.
  - destruct (isDigit c2) eqn:H2; intros H; injection H as <- <-.
    + split; [reflexivity|]. right; now exists c1, c2.
    + split; [reflexivity|]. left; now exists c1.
Qed.

Lemma FindStringSubmatch_complete (g a b : string) :
  matchesMofN g a b -> FindStringSubmatch g = Some (a, b).
Proof.
  intros (-> & Ha & Hb). unfold FindStringSubmatch.
  assert (Hfirst : matchDigits (a ++ "of" ++ b)%string
                   = Some (a, ("of" ++ b)%string)).
  { destruct Ha as [(c & -> & Hc) | (c & d & -> & Hc & Hd)].
    - apply matchDigits_one; [exact Hc|].
      intros d rest' H; injection H as <- _; exact isDigit_o.
    - now apply matchDigits_two. }
  rewrite Hfirst.
  replace (stripPrefix "of" ("of" ++ b)%string) with (Some b)
    by (symmetry; now apply stripPrefix_spec).
  destruct Hb as [(c & -> & Hc) | (c & d & -> & Hc & Hd)].
  - rewrite matchDigits_one; [reflexivity | exact Hc | discriminate].
  - now rewrite matchDigits_two.
Qed.

Lemma FindStringSubmatch_sound (g a b : string) :
  FindStringSubmatch g = Some (a, b) -> matchesMofN g a b.
Proof.
  unfold FindStringSubmatch, matchesMofN.
  destruct (matchDigits g) as [[m1 rest1]|] eqn:H1; [|discriminate].
  destruct (stripPrefix "of" rest1) as [rest2|] eqn:H2; [|discriminate].
  destruct (matchDigits rest2) as [[m2 rest3]|] eqn:H3; [|discriminate].
  destruct rest3; [|discriminate].
  intros H; injection H as <- <-.
  apply matchDigits_sound in H1; destruct H1 as [-> Hd1].
  apply stripPrefix_spec in H2; subst rest1.
  apply matchDigits_sound in H3; destruct H3 as [-> Hd3].
  split; [|now split].
  f_equal. f_equal. clear. induction m2; simpl; congruence.
Qed.

Lemma FindStringSubmatch_None (g : string) :
  FindStringSubmatch g = None <-> ~ exists a b, matchesMofN g a b.
Proof.
  split.
  - intros H (a & b & Hab).
    apply FindStringSubmatch_complete in Hab; congruence.
  - intros H. destruct (FindStringSubmatch g) as [[a b]|] eqn:E; [|reflexivity].
    exfalso; apply H; exists a, b; now apply FindStringSubmatch_sound.
Qed.

Lemma digitVal_range (c : ascii) : isDigit c = true -> 0 <= digitVal c <= 9.
Proof.
  unfold isDigit, digitVal; intros H.
  apply andb_true_iff in H; destruct H as [H1 H2].
  apply Nat.leb_le in H1; apply Nat.leb_le in H2; lia.
Qed.

Lemma Atoi_digitGroup (s : string) : digitGroup s -> 0 <= Atoi s <= 99.
Proof.
  intros [(c & -> & Hc) | (c & d & -> & Hc & Hd)]; unfold Atoi; simpl.
  - pose proof (digitVal_range c Hc); lia.
  - pose proof (digitVal_range c Hc); pose proof (digitVal_range d Hd); lia.
Qed.

Lemma gtb_false (a b : Z) : a <= b -> (a >? b) = false.
Proof. intros H; rewrite Z.gtb_ltb; apply Z.ltb_ge; lia. Qed.

(** The loop only appends to the groups gathered so far. *)
Lemma parseGroupsLoop_acc (gs : list string) :
  forall acc,
    parseGroupsLoop gs acc
    = (new <- parseGroupsLoop gs [] ;; Ok (acc ++ new)).
Proof.
  induction gs as [|g gs IH]; intros acc; simpl.
  - now rewrite app_nil_r.
  - destruct (FindStringSubmatch g) as [[m1 m2]|]; [|reflexivity].
    destruct ((Atoi m1 >? GroupLimit) || (Atoi m2 >? GroupLimit)
              || (Atoi m1 >? Atoi m2)); [reflexivity|].
    rewrite (IH (acc ++ _)), (IH [_]).
    destruct (parseGroupsLoop gs []); simpl; try reflexivity.
    now rewrite <- app_assoc.
Qed.

(** One pass of [parseGroups] over a token the checks accept. *)
Lemma parseGroups_cons_ok (g a b : string) (gs : list string) :
  matchesMofN g a b ->
  Atoi a <= GroupLimit -> Atoi b <= GroupLimit -> Atoi a <= Atoi b ->
  parseGroups (g :: gs)
  = (rest <- parseGroups gs ;; Ok (mkGroup (Atoi a) (Atoi b) :: rest)).
Proof.
  intros Hm H1 H2 H3. unfold parseGroups; simpl.
  rewrite (FindStringSubmatch_complete _ _ _ Hm).
  rewrite !gtb_false by assumption.
  simpl. now rewrite parseGroupsLoop_acc.
Qed.

(** What a successful pass over one token has checked. *)
Lemma parseGroups_cons_inv (g : string) (gs : list string)
    (groups : list MemberGroupParameters) :
  parseGroups (g :: gs) = Ok groups ->
  exists a b rest,
    matchesMofN g a b /\
    Atoi a <= GroupLimit /\ Atoi b <= GroupLimit /\ Atoi a <= Atoi b /\
    parseGroups gs = Ok rest /\ groups = mkGroup (Atoi a) (Atoi b) :: rest.
Proof.
  unfold parseGroups; simpl.
  destruct (FindStringSubmatch g) as [[a b]|] eqn:E; [|discriminate].
  destruct (Atoi a >? GroupLimit) eqn:E1; [discriminate|].
  destruct (Atoi b >? GroupLimit) eqn:E2; [discriminate|].
  destruct (Atoi a >? Atoi b) eqn:E3; [discriminate|]. simpl.
  rewrite parseGroupsLoop_acc.
  destruct (parseGroupsLoop gs []) as [rest| | |]; simpl; try discriminate.
  intros H; injection H as <-.
  rewrite Z.gtb_ltb in E1, E2, E3.
  apply Z.ltb_ge in E1, E2, E3.
  exists a, b, rest. split; [now apply FindStringSubmatch_sound|].
  repeat split; assumption.
Qed.

Lemma offending_refused (g : string) (gs : list string) :
  offending g ->
  parseGroups (g :: gs) = Err (ErrGroupDefinition g) \/
  parseGroups (g :: gs) = Err (ErrGroupFormat g GroupLimit).
Proof.
  intros [Hno | (a & b & Hm & Hbad)]; unfold parseGroups; simpl.
  - left. apply FindStringSubmatch_None in Hno. now rewrite Hno.
  - right. rewrite (FindStringSubmatch_complete _ _ _ Hm).
    replace ((Atoi a >? GroupLimit) || (Atoi b >? GroupLimit)
             || (Atoi a >? Atoi b)) with true; [reflexivity|].
    symmetry. rewrite !orb_true_iff, !Z.gtb_ltb, !Z.ltb_lt. lia.
Qed.

Lemma accepted_or_offending (g : string) :
  offending g \/
  exists a b, matchesMofN g a b /\
    Atoi a <= GroupLimit /\ Atoi b <= GroupLimit /\ Atoi a <= Atoi b.
Proof.
  destruct (FindStringSubmatch g) as [[a b]|] eqn:E.
  - apply FindStringSubmatch_sound in E.
    destruct (Z_le_gt_dec (Atoi a) GroupLimit);
      [|left; right; exists a, b; tauto].
    destruct (Z_le_gt_dec (Atoi b) GroupLimit);
      [|left; right; exists a, b; tauto].
    destruct (Z_le_gt_dec (Atoi a) (Atoi b));
      [|left; right; exists a, b; tauto].
    right; exists a, b; tauto.
  - left; left. now apply FindStringSubmatch_None.
Qed.

(** C6.  [parseGroups] goes through the tokens in order and stops at the
    first offending one (no "MofN" match of one or two digits each,
    threshold above 16, count above 16, or threshold above count) with an
    error that carries that very token, whatever follows it; when no token
    offends it returns one pair per token, in the order of the tokens. *)
Theorem parseGroups_first_offending (gs : list string) :
  (forall pre g post,
      gs = pre ++ g :: post ->
      Forall (fun x => ~ offending x) pre -> offending g ->
      parseGroups gs = Err (ErrGroupDefinition g) \/
      parseGroups gs = Err (ErrGroupFormat g GroupLimit)) /\
  (Forall (fun x => ~ offending x) gs ->
   exists groups, parseGroups gs = Ok groups /\ Forall2 denotes gs groups).
Proof.
  split.
  - intros pre; revert gs.
    induction pre as [|x pre IH]; intros gs g post -> Hpre Hg; simpl.
    + now apply offending_refused.
    + inversion Hpre as [|? ? Hx Hpre']; subst.
      destruct (accepted_or_offending x)
        as [Hbad | (a & b & Hm & H1 & H2 & H3)];
        [contradiction|].
      rewrite (parseGroups_cons_ok _ _ _ _ Hm H1 H2 H3).
      destruct (IH _ g post eq_refl Hpre' Hg) as [-> | ->]; simpl; tauto.
  - induction gs as [|x gs IH]; intros Hall.
    + exists []; split; [reflexivity | constructor].
    + inversion Hall as [|? ? Hx Hall']; subst.
      destruct (accepted_or_offending x)
        as [Hbad | (a & b & Hm & H1 & H2 & H3)];
        [contradiction|].
      destruct (IH Hall') as (rest & Hrest & Hden).
      exists (mkGroup (Atoi a) (Atoi b) :: rest); split.
      * rewrite (parseGroups_cons_ok _ _ _ _ Hm H1 H2 H3), Hrest; reflexivity.
      * constructor; [|exact Hden]. exists a, b; simpl; tauto.
Qed.

(** C5, as the code has it.  Every pair [parseGroups] returns satisfies
    [0 <= threshold <= count <= 16]: the digits bound the threshold from
    below by zero, and no check asks for more. *)
Theorem parseGroups_bounds (gs : list string)
    (groups : list MemberGroupParameters) :
  parseGroups gs = Ok groups ->
  Forall (fun p => 0 <= MemberThreshold p <= MemberCount p /\
                   MemberCount p <= 16) groups.
Proof.
  revert groups; induction gs as [|g gs IH]; intros groups H.
  - injection H as <-; constructor.
  - apply parseGroups_cons_inv in H.
    destruct H as (a & b & rest & (_ & Ha & _) & H1 & H2 & H3 & Hrest & ->).
    constructor; [|now apply IH]. simpl.
    pose proof (Atoi_digitGroup a Ha). unfold GroupLimit in *. lia.
Qed.

Lemma parseGroups_bounds_witness :
  parseGroups ["2of3"; "1of1"] = Ok [mkGroup 2 3; mkGroup 1 1] /\
  Forall (fun p => 0 <= MemberThreshold p <= MemberCount p /\
                   MemberCount p <= 16) [mkGroup 2 3; mkGroup 1 1].
Proof.
  split; [reflexivity|].
  apply (parseGroups_bounds ["2of3"; "1of1"]); reflexivity.
Defined.

(** C5, as stated, fails: a threshold of zero passes every check. *)
Lemma parseGroups_zero_threshold :
  parseGroups ["0of3"] = Ok [mkGroup 0 3] /\
  ~ (forall gs groups,
        parseGroups gs = Ok groups ->
        Forall (fun p => 1 <= MemberThreshold p <= MemberCount p /\
                         MemberCount p <= 16) groups).
Proof.
  split; [reflexivity|].
  intros H. specialize (H ["0of3"] [mkGroup 0 3] eq_refl).
  inversion H as [|? ? Hp _]; simpl in Hp; lia.
Qed.

Lemma parseGroups_first_offending_witness :
  Forall (fun x => ~ offending x) ["2of3"] /\
  offending "3of2" /\
  (parseGroups ["2of3"; "3of2"; "9of9"] = Err (ErrGroupDefinition "3of2") \/
   parseGroups ["2of3"; "3of2"; "9of9"]
   = Err (ErrGroupFormat "3of2" GroupLimit)).
Proof.
  assert (Hpre : Forall (fun x => ~ offending x) ["2of3"]).
  { constructor; [|constructor].
    intros [Hno | (a & b & Hm & Hbad)].
    - apply Hno; exists "2", "3"; vm_compute; intuition eauto 7.
    - apply FindStringSubmatch_complete in Hm; vm_compute in Hm.
      injection Hm as <- <-; vm_compute in Hbad; intuition discriminate. }
  assert (Hbad : offending "3of2").
  { right; exists "3", "2"; split.
    - vm_compute; intuition eauto 7.
    - right; right; reflexivity. }
  split; [exact Hpre|]. split; [exact Hbad|].
  exact (proj1 (parseGroups_first_offending ["2of3"; "3of2"; "9of9"])
           ["2of3"] "3of2" ["9of9"] eq_refl Hpre Hbad).
Defined.

(** ** Flat word lists *)

Local Open Scope nat_scope.

Example convertWordsToShares_40 :
  convertWordsToShares (repeat "a" 40)
  = Ok [Join (repeat "a" 20) " "; Join (repeat "a" 20) " "].
Proof. reflexivity. Qed.

Example convertWordsToShares_21 :
  convertWordsToShares (repeat "a" 21) = Err (ErrWordListLength 21).
Proof. reflexivity. Qed.

Example convertWordsToShares_none :
  convertWordsToShares [] = Err ErrNoWords.
Proof. reflexivity. Qed.

Lemma slice_middle {A} (pre c rest : list A) :
  slice (pre ++ c ++ rest) (List.length pre) (List.length pre + List.length c)
  = Ok c.
Proof.
  unfold slice.
  replace (List.length pre <=? List.length pre + List.length c) with true
    by (symmetry; apply Nat.leb_le; lia).
  replace (List.length pre + List.length c <=? List.length (pre ++ c ++ rest))
    with true by (symmetry; apply Nat.leb_le; rewrite !length_app; lia).
  simpl. f_equal.
  rewrite skipn_app, skipn_all, Nat.sub_diag; simpl.
  replace (List.length pre + List.length c - List.length pre)
    with (List.length c) by lia.
  rewrite firstn_app, firstn_all, Nat.sub_diag; simpl.
  now rewrite app_nil_r.
Qed.

(** The loop, started on a chunk boundary with enough fuel, appends the
    joined chunks that remain. *)
Lemma convertLoop_chunks (mlen : nat) (chunks : list (list string)) :
  0 < mlen ->
  Forall (fun c => List.length c = mlen) chunks ->
  forall fuel pre acc,
    List.length chunks < fuel ->
    convertLoop fuel (pre ++ List.concat chunks) mlen (List.length pre) acc
    = Ok (acc ++ map (fun c => Join c " ") chunks).
Proof.
  intros Hm Hall.
  induction Hall as [|c chunks Hc Hall IH]; intros fuel pre acc Hfuel.
  - destruct fuel as [|fuel]; [inversion Hfuel|]. simpl.
    rewrite app_nil_r, Nat.ltb_irrefl. now rewrite app_nil_r.
  - destruct fuel as [|fuel]; [inversion Hfuel|].
    simpl in Hfuel. subst mlen. simpl.
    replace (List.length pre <? List.length (pre ++ c ++ List.concat chunks))
      with true
      by (symmetry; apply Nat.ltb_lt; rewrite !length_app; lia).
    rewrite slice_middle. simpl bind.
    replace (List.length pre + List.length c) with (List.length (pre ++ c))
      by (rewrite length_app; lia).
    rewrite (app_assoc pre c). rewrite IH by lia.
    now rewrite <- app_assoc.
Qed.

Lemma chunks_exist (mlen : nat) :
  forall k (l : list string),
    List.length l = k * mlen ->
    exists chunks,
      List.concat chunks = l /\
      Forall (fun c => List.length c = mlen) chunks /\
      List.length chunks = k.
Proof.
  induction k as [|k IH]; intros l Hl.
  - exists []. destruct l; [repeat split; constructor | discriminate].
  - destruct (IH (skipn mlen l)) as (chunks & Hcat & Hall & Hlen).
    { rewrite length_skipn; simpl in Hl; lia. }
    exists (firstn mlen l :: chunks). simpl. repeat split.
    + now rewrite Hcat, firstn_skipn.
    + constructor; [|exact Hall]. rewrite length_firstn; simpl in Hl; lia.
    + now rewrite Hlen.
Qed.

(** With a chunk size that divides the word count the loop returns the
    partition. *)
Lemma convertLoop_partition (mlen : nat) (words : list string) :
  0 < mlen -> List.length words mod mlen = 0 ->
  exists shares,
    convertLoop (S (List.length words)) words mlen 0 [] = Ok shares /\
    partitioned mlen words shares.
Proof.
  intros Hm Hmod.
  apply Nat.Div0.div_exact in Hmod.
  destruct (chunks_exist mlen (List.length words / mlen) words)
    as (chunks & Hcat & Hall & Hlen); [lia|].
  exists (map (fun c => Join c " ") chunks). split.
  - rewrite <- Hcat at 2.
    rewrite (convertLoop_chunks mlen chunks Hm Hall _ [] []); [reflexivity|].
    rewrite Hlen. assert (List.length words / mlen <= List.length words)
      by (apply Nat.Div0.div_le_upper_bound; nia). lia.
  - exists chunks; repeat split; assumption.
Qed.

(** The model's iteration budget is never exhausted. *)
Lemma convertWordsToShares_total (words : list string) :
  convertWordsToShares words <> OutOfFuel.
Proof.
  unfold convertWordsToShares.
  destruct (List.length words =? 0); [discriminate|].
  destruct (List.length words mod 33 =? 0) eqn:E33.
  - apply Nat.eqb_eq in E33. pick_size.
    destruct (convertLoop_partition 33 words) as (s & -> & _);
      [lia | exact E33 | discriminate].
  - destruct (List.length words mod 20 =? 0) eqn:E20; [|discriminate].
    apply Nat.eqb_eq in E20. pick_size.
    destruct (convertLoop_partition 20 words) as (s & -> & _);
      [lia | exact E20 | discriminate].
Qed.

(** C7.  For a non-empty list of words: when the word count is a multiple
    of 33 the list is cut into chunks of 33; otherwise, when it is a
    multiple of 20, into chunks of 20; otherwise the call fails with the
    invalid-length error that cites the word count.  On success the shares
    are the consecutive chunks, joined with single spaces, in order. *)
Theorem convertWordsToShares_chunks (words : list string) :
  words <> [] ->
  (List.length words mod 33 = 0 ->
   exists shares,
     convertWordsToShares words = Ok shares /\ partitioned 33 words shares) /\
  (List.length words mod 33 <> 0 -> List.length words mod 20 = 0 ->
   exists shares,
     convertWordsToShares words = Ok shares /\ partitioned 20 words shares) /\
  (List.length words mod 33 <> 0 -> List.length words mod 20 <> 0 ->
   convertWordsToShares words = Err (ErrWordListLength (List.length words))).
Proof.
  intros Hne. unfold convertWordsToShares.
  replace (List.length words =? 0) with false
    by (symmetry; apply Nat.eqb_neq; destruct words; simpl; congruence).
  repeat split.
  - intros H33. apply Nat.eqb_eq in H33 as E; rewrite E; pick_size.
    apply convertLoop_partition; [lia | exact H33].
  - intros H33 H20. apply Nat.eqb_neq in H33 as E; rewrite E.
    apply Nat.eqb_eq in H20 as E'; rewrite E'; pick_size.
    apply convertLoop_partition; [lia | exact H20].
  - intros H33 H20. apply Nat.eqb_neq in H33 as E; rewrite E.
    apply Nat.eqb_neq in H20 as E'; rewrite E'; reflexivity.
Qed.

(** [strings.Join] undoes [strings.Split] on the same separator. *)
Lemma SplitSpace_nonempty (s : string) : SplitSpace s <> [].
Proof.
  destruct s as [|c s]; simpl; [discriminate|].
  destruct (Ascii.eqb c space); [discriminate|].
  destruct (SplitSpace s); discriminate.
Qed.

Lemma Join_SplitSpace (s : string) : Join (SplitSpace s) " " = s.
Proof.
  induction s as [|c s IH]; [reflexivity|].
  simpl SplitSpace. destruct (Ascii.eqb c space) eqn:E.
  - apply Ascii.eqb_eq in E; subst c.
    pose proof (SplitSpace_nonempty s) as Hne.
    destruct (SplitSpace s) as [|w ws] eqn:Es; [congruence|].
    change (Join (EmptyString :: w :: ws) " ")
      with (String space (Join (w :: ws) " ")).
    now rewrite IH.
  - pose proof (SplitSpace_nonempty s) as Hne.
    destruct (SplitSpace s) as [|w ws] eqn:Es; [congruence|].
    destruct ws as [|w' ws].
    + simpl in *. now rewrite IH.
    + change (Join (String c w :: w' :: ws) " ")
        with (String c (Join (w :: w' :: ws) " ")).
      now rewrite IH.
Qed.

(** A share written as words with single spaces between them splits into
    these words. *)
Lemma SplitSpace_app_space (w s : string) :
  spaceFree w ->
  SplitSpace (w ++ String space s)%string = w :: SplitSpace s.
Proof.
  induction w as [|c w IH]; intros Hw; [reflexivity|].
  cbn [String.append SplitSpace].
  replace (Ascii.eqb c space) with false
    by (symmetry; apply Ascii.eqb_neq, Hw; now left).
  rewrite IH; [reflexivity|]. intros d Hd; apply Hw; now right.
Qed.

Lemma SplitSpace_word (w : string) : spaceFree w -> SplitSpace w = [w].
Proof.
  induction w as [|c w IH]; intros Hw; [reflexivity|].
  cbn [SplitSpace].
  replace (Ascii.eqb c space) with false
    by (symmetry; apply Ascii.eqb_neq, Hw; now left).
  rewrite IH; [reflexivity|]. intros d Hd; apply Hw; now right.
Qed.

Lemma SplitSpace_Join (ws : list string) :
  ws <> [] -> Forall spaceFree ws -> SplitSpace (Join ws " ") = ws.
Proof.
  intros Hne Hall. induction Hall as [|w ws Hw Hall IH]; [congruence|].
  destruct ws as [|w' ws]; [now apply SplitSpace_word|].
  change (Join (w :: w' :: ws) " ")
    with (w ++ String space (Join (w' :: ws) " "))%string.
  rewrite SplitSpace_app_space by exact Hw.
  now rewrite IH.
Qed.

Lemma length_concat_uniform {A} (L : nat) (ls : list (list A)) :
  Forall (fun l => List.length l = L) ls ->
  List.length (List.concat ls) = List.length ls * L.
Proof.
  induction 1 as [|l ls Hl _ IH]; simpl; [reflexivity|].
  rewrite length_app, IH, Hl; reflexivity.
Qed.

(** C8, as the code has it.  For [N > 0] shares of [L] space-separated
    words each, where [L] is 33, or [L] is 20 and [N] is not a multiple of
    33, cutting the shares into their words and converting the flat list
    gives the shares back. *)
Theorem convertWordsToShares_roundtrip (L N : nat) (shares : list string) :
  0 < N -> List.length shares = N ->
  Forall (fun s => List.length (SplitSpace s) = L) shares ->
  L = 33 \/ (L = 20 /\ N mod 33 <> 0) ->
  convertWordsToShares (flat_map SplitSpace shares) = Ok shares.
Proof.
  intros HN Hlen Hall HL.
  rewrite flat_map_concat_map.
  assert (Hchunks : Forall (fun c => List.length c = L) (map SplitSpace shares))
    by (apply Forall_map; exact Hall).
  assert (Hwords : List.length (List.concat (map SplitSpace shares)) = N * L)
    by (rewrite (length_concat_uniform L _ Hchunks), length_map, Hlen;
        reflexivity).
  assert (Hjoin : map (fun c => Join c " ") (map SplitSpace shares) = shares).
  { rewrite map_map. rewrite <- (map_id shares) at 2.
    apply map_ext; intros s; apply Join_SplitSpace. }
  assert (Hrun : 0 < L ->
            convertLoop (S (List.length (List.concat (map SplitSpace shares))))
              (List.concat (map SplitSpace shares)) L 0 [] = Ok shares).
  { intros HLpos.
    rewrite (convertLoop_chunks L (map SplitSpace shares) HLpos Hchunks
               _ [] []).
    - simpl; now rewrite Hjoin.
    - rewrite Hwords, length_map, Hlen. nia. }
  unfold convertWordsToShares. rewrite Hwords.
  destruct HL as [-> | [-> Hnot]].
  - replace (N * 33 =? 0) with false by (symmetry; apply Nat.eqb_neq; lia).
    rewrite Nat.Div0.mod_mul. pick_size. rewrite <- Hwords. apply Hrun; lia.
  - replace (N * 20 =? 0) with false by (symmetry; apply Nat.eqb_neq; lia).
    replace (N * 20 mod 33 =? 0) with false.
    + rewrite Nat.Div0.mod_mul. pick_size. rewrite <- Hwords. apply Hrun; lia.
    + symmetry; apply Nat.eqb_neq. intros H. apply Hnot.
      apply Nat.Lcm0.mod_divide in H. apply Nat.Lcm0.mod_divide.
      apply (Nat.gauss 33 20 N); [now rewrite Nat.mul_comm | reflexivity].
Qed.

Lemma convertWordsToShares_chunks_witness :
  repeat "word" 66 <> [] /\
  List.length (repeat "word" 66) mod 33 = 0 /\
  exists shares,
    convertWordsToShares (repeat "word" 66) = Ok shares /\
    partitioned 33 (repeat "word" 66) shares.
Proof.
  split; [discriminate|]. split; [reflexivity|].
  apply (proj1 (convertWordsToShares_chunks (repeat "word" 66)
                  ltac:(discriminate))).
  reflexivity.
Defined.

Lemma convertWordsToShares_roundtrip_witness :
  0 < 2 /\
  List.length (repeat (Join (repeat "word" 20) " ") 2) = 2 /\
  convertWordsToShares
    (flat_map SplitSpace (repeat (Join (repeat "word" 20) " ") 2))
  = Ok (repeat (Join (repeat "word" 20) " ") 2).
Proof.
  split; [lia|]. split; [reflexivity|].
  apply (convertWordsToShares_roundtrip 20 2).
  - lia.
  - reflexivity.
  - repeat constructor.
  - right; split; [reflexivity | discriminate].
Defined.

(** C8, as stated, fails: 660 words are 33 shares of 20 words and also 20
    shares of 33 words, and the test for 33 comes first. *)
Lemma roundtrip_fails_33_shares_of_20 :
  0 < 33 /\
  List.length shares33x20 = 33 /\
  Forall (fun s => List.length (SplitSpace s) = 20) shares33x20 /\
  (exists shares,
     convertWordsToShares (flat_map SplitSpace shares33x20) = Ok shares /\
     List.length shares = 20) /\
  convertWordsToShares (flat_map SplitSpace shares33x20) <> Ok shares33x20.
Proof.
  split; [lia|]. split; [reflexivity|]. split.
  { assert (H : forallb (fun s => List.length (SplitSpace s) =? 20)
                  shares33x20 = true) by (vm_compute; reflexivity).
    rewrite forallb_forall in H. apply Forall_forall.
    intros s Hs. apply Nat.eqb_eq, H, Hs. }
  split.
  - eexists; split; [vm_compute; reflexivity | reflexivity].
  - intros H.
    apply (f_equal (fun r => match r with
                             | Ok l => List.length l
                             | _ => 0
                             end)) in H.
    vm_compute in H. discriminate.
Qed.

(** ** Input normalisation *)

Lemma fold_append_map {A B} (f : A -> B) (l : list A) :
  forall acc, fold_left (fun ms m => ms ++ [f m]) l acc = acc ++ map f l.
Proof.
  induction l as [|x l IH]; intros acc; simpl.
  - now rewrite app_nil_r.
  - now rewrite IH, <- app_assoc.
Qed.

Lemma Contains_space_free (s : string) :
  (forall c, In c (list_ascii_of_string s) -> asciiSpace c = false) ->
  Contains s " " = false.
Proof.
  induction s as [|c s IH]; intros H; [reflexivity|].
  cbn [Contains HasPrefix]. destruct (Ascii.eqb " " c) eqn:E.
  - apply Ascii.eqb_eq in E; subst c.
    specialize (H " "%char (or_introl eq_refl)); discriminate.
  - cbn [andb orb]. apply IH. intros d Hd. apply H. now right.
Qed.

Section NormaliserFacts.

Variable ToLower : string -> string.
Variable TrimSpace : string -> string.

Lemma reroute_step (entries : list string) :
  rerouted TrimSpace entries
    (first <- index entries 0 ;;
     if negb (Contains (TrimSpace first) " ")
     then convertWordsToShares entries else Ok entries).
Proof.
  intros first rest ->. simpl.
  repeat split; intros H.
  - now rewrite (Contains_space_free _ H).
  - now rewrite H.
  - now rewrite H.
Qed.

(** C9.  [readShareMnemonics] branches on the number of argument tokens:
    with 1 to 19 tokens the entries are the tokens, each in lower case; with
    20 or more there is a single entry, the tokens joined with single spaces,
    in lower case; with none the entries are the trimmed lines of the
    auxiliary source, in lower case.  Whatever the source, when the first
    entry has no whitespace inside, the whole list goes through
    [convertWordsToShares] and its outcome is returned; when it has a space
    inside, the entries are returned as they are. *)
Theorem readShareMnemonics_branches (ctx : Context) (args : list string) :
  (1 <= List.length args <= 19 ->
   rerouted TrimSpace (map ToLower args)
     (readShareMnemonics ToLower TrimSpace ctx args)) /\
  (20 <= List.length args ->
   rerouted TrimSpace [ToLower (Join args " ")]
     (readShareMnemonics ToLower TrimSpace ctx args)) /\
  (List.length args = 0 -> failure (reader ctx) = None ->
   rerouted TrimSpace
     (map (fun text => ToLower (TrimSpace text)) (lines (reader ctx)))
     (readShareMnemonics ToLower TrimSpace ctx args)).
Proof.
  unfold readShareMnemonics. split; [|split].
  - intros [Hlo Hhi].
    replace ((0 <? List.length args) && (List.length args <? 20)) with true
      by (symmetry; apply andb_true_iff; split; apply Nat.ltb_lt; lia).
    rewrite fold_append_map. simpl app.
    replace (List.length (map ToLower args) =? 0) with false
      by (symmetry; apply Nat.eqb_neq; rewrite length_map; lia).
    apply reroute_step.
  - intros Hlen.
    replace ((0 <? List.length args) && (List.length args <? 20)) with false
      by (symmetry; apply andb_false_iff; right; apply Nat.ltb_ge; lia).
    replace (20 <=? List.length args) with true
      by (symmetry; apply Nat.leb_le; lia).
    apply reroute_step.
  - intros Hlen Hok. rewrite Hlen, Hok. simpl.
    rewrite fold_append_map. apply reroute_step.
Qed.

(** An auxiliary source that fails makes the call fail. *)
Lemma readShareMnemonics_scan_failure (ctx : Context) (cause : string) :
  failure (reader ctx) = Some cause ->
  readShareMnemonics ToLower TrimSpace ctx [] = Err (ErrScanning cause).
Proof. intros H; unfold readShareMnemonics; simpl; now rewrite H. Qed.

(** C4, on the code.  Without argument tokens and with an auxiliary source
    that delivers nothing, [readShareMnemonics] indexes the first entry of an
    empty list: it panics, where [convertWordsToShares], one call further,
    holds the error for an empty list. *)
Theorem readShareMnemonics_empty_input_panics :
  readShareMnemonics ToLower TrimSpace (mkContext (sourceOf "")) []
  = Panic IndexOutOfRange /\
  convertWordsToShares [] = Err ErrNoWords.
Proof. split; reflexivity. Qed.

End NormaliserFacts.

(** One phrase on one line of the auxiliary source. *)
Example readShareMnemonics_single_line :
  readShareMnemonics asciiToLower asciiTrimSpace
    (mkContext (sourceOf "  Abandon abandon  BEAN ")) []
  = Ok ["abandon abandon  bean"].
Proof. reflexivity. Qed.

(** Forty lines of one word each come back as two shares of twenty words. *)
Example readShareMnemonics_forty_words :
  readShareMnemonics asciiToLower asciiTrimSpace
    (mkContext
       (sourceOf
          (String.concat "" (repeat (String "w" (String newline "")) 40))))
    []
  = Ok [Join (repeat "w" 20) " "; Join (repeat "w" 20) " "].
Proof. vm_compute. reflexivity. Qed.

(** Twenty tokens or more are one phrase. *)
Example readShareMnemonics_twenty_tokens :
  readShareMnemonics asciiToLower asciiTrimSpace
    (mkContext (sourceOf "")) (repeat "Word" 20)
  = Ok [Join (repeat "word" 20) " "].
Proof. vm_compute. reflexivity. Qed.

(** Fewer single-word tokens go through [convertWordsToShares]. *)
Example readShareMnemonics_five_words :
  readShareMnemonics asciiToLower asciiTrimSpace
    (mkContext (sourceOf "")) (repeat "word" 5)
  = Err (ErrWordListLength 5).
Proof. vm_compute. reflexivity. Qed.

Lemma readShareMnemonics_branches_witness :
  (1 <= List.length ["Alpha Beta"; "gamma"] <= 19) /\
  rerouted asciiTrimSpace (map asciiToLower ["Alpha Beta"; "gamma"])
    (readShareMnemonics asciiToLower asciiTrimSpace
       (mkContext (sourceOf "")) ["Alpha Beta"; "gamma"]) /\
  readShareMnemonics asciiToLower asciiTrimSpace
    (mkContext (sourceOf "")) ["Alpha Beta"; "gamma"]
  = Ok ["alpha beta"; "gamma"].
Proof.
  split; [simpl; lia|]. split; [|reflexivity].
  apply (proj1 (readShareMnemonics_branches asciiToLower asciiTrimSpace
                  (mkContext (sourceOf "")) ["Alpha Beta"; "gamma"])).
  simpl; lia.
Defined.

(** ** Bits and bytes *)

Local Open Scope Z_scope.

Lemma lor_shiftl_add (a b n : Z) :
  0 <= n -> 0 <= b < 2 ^ n -> Z.lor (Z.shiftl a n) b = a * 2 ^ n + b.
Proof.
  intros Hn Hb.
  assert (Hland : Z.land (Z.shiftl a n) b = 0).
  { apply Z.bits_inj'; intros k Hk.
    rewrite Z.land_spec, Z.bits_0.
    destruct (Z.lt_ge_cases k n) as [Hlt | Hge].
    - now rewrite Z.shiftl_spec_low.
    - rewrite <- (Z.mod_small b (2 ^ n)) by exact Hb.
      rewrite Z.mod_pow2_bits_high by lia. apply andb_false_r. }
  rewrite <- Z.shiftl_mul_pow2 by exact Hn.
  rewrite Z.add_nocarry_lxor by exact Hland.
  symmetry; now apply Z.lxor_lor.
Qed.

(** The packed value of a phrase splits into entropy and checksum. *)
Lemma split_packed (E i c cs : Z) :
  0 <= cs <= 11 -> 0 <= c < 2 ^ cs ->
  Z.shiftr (E * 2048 + (i * 2 ^ cs + c)) cs = E * 2 ^ (11 - cs) + i /\
  Z.land (E * 2048 + (i * 2 ^ cs + c)) (Z.ones cs) = c.
Proof.
  intros Hcs Hc.
  assert (H2048 : 2048 = 2 ^ (11 - cs) * 2 ^ cs)
    by (rewrite <- Z.pow_add_r by lia;
        now replace (11 - cs + cs) with 11 by lia).
  assert (Hpos : 0 < 2 ^ cs) by (apply Z.pow_pos_nonneg; lia).
  replace (E * 2048 + (i * 2 ^ cs + c))
    with (c + (E * 2 ^ (11 - cs) + i) * 2 ^ cs) by (rewrite H2048; ring).
  split.
  - rewrite Z.shiftr_div_pow2 by lia.
    rewrite Z.div_add by lia. rewrite Z.div_small by exact Hc. lia.
  - rewrite Z.land_ones by lia.
    rewrite Z.mod_add by lia. now apply Z.mod_small.
Qed.

Lemma shiftr_byte_range (h cs : Z) :
  0 <= h < 256 -> 0 <= cs <= 8 -> 0 <= Z.shiftr h (8 - cs) < 2 ^ cs.
Proof.
  intros Hh Hcs. rewrite Z.shiftr_div_pow2 by lia.
  assert (Hpos : 0 < 2 ^ (8 - cs)) by (apply Z.pow_pos_nonneg; lia).
  assert (H256 : 256 = 2 ^ (8 - cs) * 2 ^ cs)
    by (rewrite <- Z.pow_add_r by lia; now replace (8 - cs + cs) with 8 by lia).
  split.
  - apply Z.div_pos; lia.
  - apply Z.div_lt_upper_bound; lia.
Qed.

Lemma bigEndian_length (n : nat) :
  forall x, List.length (bigEndian n x) = n.
Proof.
  induction n as [|n IH]; intros x; simpl; [reflexivity|].
  rewrite length_app, IH; simpl; lia.
Qed.

Lemma bigEndian_range (n : nat) :
  forall x, Forall (fun b => 0 <= b < 256) (bigEndian n x).
Proof.
  induction n as [|n IH]; intros x; simpl; [constructor|].
  apply Forall_app; split; [apply IH|].
  constructor; [|constructor]. apply Z.mod_pos_bound; lia.
Qed.

(** ** The digest is 32 bytes *)

Lemma round_length (st : list Z) (kw : Z * Z) :
  List.length st = 8%nat -> List.length (Sha256.round st kw) = 8%nat.
Proof.
  intros H.
  do 8 (destruct st as [|? st]; [discriminate|]).
  destruct st; [reflexivity | discriminate].
Qed.

Lemma rounds_length (kws : list (Z * Z)) :
  forall st, List.length st = 8%nat ->
             List.length (fold_left Sha256.round kws st) = 8%nat.
Proof.
  induction kws as [|kw kws IH]; intros st H; [exact H|].
  cbn [fold_left]. apply IH, round_length, H.
Qed.

Lemma compress_length (h block : list Z) :
  List.length h = 8%nat -> List.length (Sha256.compress h block) = 8%nat.
Proof.
  intros H. unfold Sha256.compress.
  rewrite length_map, length_combine, rounds_length, H by exact H.
  reflexivity.
Qed.

Lemma blocks_length (n : nat) :
  forall h ws, List.length h = 8%nat ->
               List.length (Sha256.blocks n h ws) = 8%nat.
Proof.
  induction n as [|n IH]; intros h ws H; [exact H|].
  cbn [Sha256.blocks]. apply IH, compress_length, H.
Qed.

Lemma flat_map_bigEndian_length (n : nat) (l : list Z) :
  List.length (flat_map (bigEndian n) l) = (List.length l * n)%nat.
Proof.
  induction l as [|x l IH]; [reflexivity|].
  cbn [flat_map List.length]. rewrite length_app, bigEndian_length, IH.
  reflexivity.
Qed.

Lemma sum256_length (msg : list Z) :
  List.length (Sha256.sum256 msg) = 32%nat.
Proof.
  unfold Sha256.sum256.
  rewrite flat_map_bigEndian_length, blocks_length; reflexivity.
Qed.

Lemma sum256_range (msg : list Z) :
  Forall (fun b => 0 <= b < 256) (Sha256.sum256 msg).
Proof.
  unfold Sha256.sum256.
  generalize (Sha256.blocks
                (List.length (Sha256.toWords (Sha256.pad msg)) / 16)
                Sha256.init (Sha256.toWords (Sha256.pad msg))) as l.
  induction l as [|x l IH]; [constructor|].
  cbn [flat_map]. apply Forall_app; split; [apply bigEndian_range | exact IH].
Qed.

(** [hash[0]] is there, and it is a byte. *)
Lemma sum256_first (msg : list Z) :
  index (Sha256.sum256 msg) 0 = Ok (nth 0 (Sha256.sum256 msg) 0) /\
  0 <= nth 0 (Sha256.sum256 msg) 0 < 256.
Proof.
  pose proof (sum256_length msg) as Hlen.
  pose proof (sum256_range msg) as Hrange.
  destruct (Sha256.sum256 msg) as [|h0 rest]; [discriminate|].
  split; [reflexivity|]. now inversion Hrange.
Qed.

Example sum256_abc :
  Sha256.sum256 [97; 98; 99]
  = [186; 120; 22; 191; 143; 1; 207; 234; 65; 65; 64; 222; 93; 174; 34; 35;
     176; 3; 97; 163; 150; 23; 122; 156; 180; 16; 255; 97; 242; 0; 21; 173].
Proof. vm_compute. reflexivity. Qed.

Example sum256_empty :
  Sha256.sum256 []
  = [227; 176; 196; 66; 152; 252; 28; 20; 154; 251; 244; 200; 153; 111; 185;
     36; 39; 174; 65; 228; 100; 155; 147; 76; 164; 149; 153; 27; 120; 82;
     184; 85].
Proof. vm_compute. reflexivity. Qed.

(** ** The vocabulary *)

Lemma indexFrom_bounds (l : list string) (w : string) :
  forall i k, indexFrom i l w = Some k ->
              i <= k < i + Z.of_nat (List.length l).
Proof.
  induction l as [|v l IH]; intros i k; simpl; [discriminate|].
  destruct (String.eqb v w).
  - intros H; injection H as <-; lia.
  - intros H; apply IH in H; lia.
Qed.

Lemma indexFrom_known (l : list string) (w : string) :
  In w l -> forall i, exists k, indexFrom i l w = Some k.
Proof.
  induction l as [|v l IH]; intros Hin i; [destruct Hin|].
  simpl. destruct (String.eqb v w) eqn:E; [now exists i|].
  destruct Hin as [-> | Hin]; [now rewrite String.eqb_refl in E|].
  apply IH, Hin.
Qed.

Lemma indexFrom_unknown (l : list string) (w : string) :
  ~ In w l -> forall i, indexFrom i l w = None.
Proof.
  induction l as [|v l IH]; intros Hin i; [reflexivity|].
  simpl. destruct (String.eqb v w) eqn:E.
  - apply String.eqb_eq in E; subst v. exfalso; apply Hin; now left.
  - apply IH. intros H; apply Hin; now right.
Qed.

(** In a table without repetition a word is found where it stands. *)
Lemma indexFrom_nth (l : list string) :
  NoDup l ->
  forall j w i, nth_error l j = Some w ->
                indexFrom i l w = Some (i + Z.of_nat j).
Proof.
  induction 1 as [|v l Hv Hnd IH]; intros j w i Hj.
  - destruct j; discriminate.
  - destruct j as [|j]; simpl in Hj.
    + injection Hj as ->. simpl. rewrite String.eqb_refl. f_equal; lia.
    + simpl. destruct (String.eqb v w) eqn:E.
      * apply String.eqb_eq in E; subst v.
        exfalso; apply Hv. eapply nth_error_In, Hj.
      * rewrite (IH j w (i + 1) Hj). f_equal; lia.
Qed.

Lemma index_in_range {A} (l : list A) (i : Z) :
  0 <= i < Z.of_nat (List.length l) ->
  exists a, index l i = Ok a /\ nth_error l (Z.to_nat i) = Some a.
Proof.
  intros Hi. unfold index.
  replace (i <? 0) with false by (symmetry; apply Z.ltb_ge; lia).
  destruct (nth_error l (Z.to_nat i)) as [a|] eqn:E; [now exists a|].
  apply nth_error_None in E; lia.
Qed.

Lemma distinctb_sound (l : list string) : distinctb l = true -> NoDup l.
Proof.
  induction l as [|x l IH]; simpl; intros H; [constructor|].
  apply andb_true_iff in H; destruct H as [Hx Hl].
  constructor; [|now apply IH].
  intros Hin. apply negb_true_iff in Hx.
  assert (existsb (String.eqb x) l = true); [|congruence].
  apply existsb_exists. exists x; split; [exact Hin | apply String.eqb_refl].
Qed.

Lemma allKnownb_sound (vocabulary words : list string) :
  allKnownb vocabulary words = true ->
  Forall (fun w => In w vocabulary) words.
Proof.
  unfold allKnownb; intros H. rewrite forallb_forall in H.
  apply Forall_forall; intros w Hw.
  specialize (H w Hw). apply existsb_exists in H.
  destruct H as (v & Hv & E). apply String.eqb_eq in E; now subst.
Qed.

Lemma sampleWordlist_length : List.length sampleWordlist = 2048%nat.
Proof. reflexivity. Qed.

Lemma sampleWordlist_distinct : NoDup sampleWordlist.
Proof. apply distinctb_sound. vm_compute. reflexivity. Qed.

Section VocabularyFacts.

Variable wordlist : list string.

Hypothesis wordlist_length : List.length wordlist = 2048%nat.
Hypothesis wordlist_distinct : NoDup wordlist.


Lemma GetWordIndex_range (w : string) (k : Z) :
  GetWordIndex wordlist w = Some k -> 0 <= k < 2048.
Proof.
  intros H; apply indexFrom_bounds in H. rewrite wordlist_length in H; lia.
Qed.

Lemma GetWordIndex_nth (j : nat) (w : string) :
  nth_error wordlist j = Some w -> GetWordIndex wordlist w = Some (Z.of_nat j).
Proof.
  intros H. unfold GetWordIndex.
  now rewrite (indexFrom_nth wordlist wordlist_distinct j w 0 H).
Qed.

(** The loop of [bip39Entropy] on two lists in a row. *)
Lemma bip39EntropyLoop_app (ws1 ws2 : list string) :
  forall acc,
    bip39EntropyLoop wordlist (ws1 ++ ws2) acc
    = (i <- bip39EntropyLoop wordlist ws1 acc ;;
       bip39EntropyLoop wordlist ws2 i).
Proof.
  induction ws1 as [|w ws1 IH]; intros acc; simpl; [reflexivity|].
  destruct (GetWordIndex wordlist w); [apply IH | reflexivity].
Qed.

(** Known words pack into 11 bits each, below what the accumulator holds. *)
Lemma bip39EntropyLoop_known (ws : list string) :
  Forall (fun w => In w wordlist) ws ->
  forall acc, 0 <= acc ->
    exists E,
      bip39EntropyLoop wordlist ws acc = Ok E /\
      acc * 2 ^ (11 * Z.of_nat (List.length ws)) <= E
      < (acc + 1) * 2 ^ (11 * Z.of_nat (List.length ws)).
Proof.
  induction 1 as [|w ws Hw Hws IH]; intros acc Hacc.
  - exists acc; simpl; split; [reflexivity | lia].
  - destruct (indexFrom_known wordlist w Hw 0) as (k & Hk).
    pose proof (GetWordIndex_range w k Hk) as Hrange.
    cbn [bip39EntropyLoop]. unfold GetWordIndex. rewrite Hk.
    rewrite lor_shiftl_add by (change (2 ^ 11) with 2048; lia).
    change (2 ^ 11) with 2048.
    destruct (IH (acc * 2048 + k)) as (E & HE & Hlo & Hhi); [lia|].
    exists E; split; [exact HE|].
    replace (11 * Z.of_nat (List.length (w :: ws)))
      with (11 + 11 * Z.of_nat (List.length ws))
      by (cbn [List.length]; lia).
    rewrite Z.pow_add_r by lia. change (2 ^ 11) with 2048.
    assert (0 < 2 ^ (11 * Z.of_nat (List.length ws)))
      by (apply Z.pow_pos_nonneg; lia).
    nia.
Qed.

Lemma bip39Entropy_known (ws : list string) :
  Forall (fun w => In w wordlist) ws ->
  exists E,
    bip39Entropy wordlist ws = Ok E /\
    0 <= E < 2 ^ (11 * Z.of_nat (List.length ws)).
Proof.
  intros H. destruct (bip39EntropyLoop_known ws H 0) as (E & HE & Hb); [lia|].
  exists E; split; [exact HE | lia].
Qed.

(** The first unknown word stops the loop. *)
Lemma bip39EntropyLoop_unknown (pre post : list string) (w : string) :
  Forall (fun v => In v wordlist) pre -> ~ In w wordlist ->
  forall acc,
    bip39EntropyLoop wordlist (pre ++ w :: post) acc = Err (ErrInvalidWord w).
Proof.
  intros Hpre Hw.
  induction Hpre as [|v pre Hv Hpre IH]; intros acc; simpl.
  - unfold GetWordIndex. now rewrite indexFrom_unknown.
  - destruct (indexFrom_known wordlist v Hv 0) as (k & Hk).
    unfold GetWordIndex at 1. rewrite Hk. apply IH.
Qed.

(** ** One pass of the enumeration loop *)

Lemma completionIndex_add (cs : Z) (es : nat) (i cand : Z) :
  0 <= cs <= 8 ->
  0 <= checksumOf cs es cand < 2 ^ cs /\
  completionIndex cs es i cand = i * 2 ^ cs + checksumOf cs es cand /\
  Z.shiftl i cs + checksumOf cs es cand = i * 2 ^ cs + checksumOf cs es cand.
Proof.
  intros Hcs.
  assert (Hc : 0 <= checksumOf cs es cand < 2 ^ cs).
  { unfold checksumOf. apply shiftr_byte_range; [|exact Hcs].
    apply (sum256_first (bigEndian es cand)). }
  split; [exact Hc|]. split.
  - unfold completionIndex. apply lor_shiftl_add; [lia | exact Hc].
  - now rewrite Z.shiftl_mul_pow2 by lia.
Qed.

Lemma completionIndex_range (cs : Z) (es : nat) (i cand : Z) :
  0 <= cs <= 8 -> 0 <= i < 2 ^ (11 - cs) ->
  0 <= completionIndex cs es i cand < 2048.
Proof.
  intros Hcs Hi.
  destruct (completionIndex_add cs es i cand Hcs) as (Hc & -> & _).
  assert (H2048 : 2048 = 2 ^ (11 - cs) * 2 ^ cs)
    by (rewrite <- Z.pow_add_r by lia;
        now replace (11 - cs + cs) with 11 by lia).
  assert (0 < 2 ^ cs) by (apply Z.pow_pos_nonneg; lia).
  nia.
Qed.

(** With a checksum of at most 8 bits and a candidate that fits the buffer,
    the body computes the index of the design document. *)
Lemma checkwordIndex_ok (cs : Z) (es : nat) (i cand : Z) :
  0 <= cs <= 8 -> 0 <= cand < 256 ^ Z.of_nat es ->
  checkwordIndex cs es i cand = Ok (completionIndex cs es i cand).
Proof.
  intros Hcs Hcand. unfold checkwordIndex, FillBytes.
  replace (cand <? 256 ^ Z.of_nat es) with true
    by (symmetry; apply Z.ltb_lt; lia).
  cbn [bind].
  destruct (sum256_first (bigEndian es cand)) as [Hidx _].
  rewrite Hidx. cbn [bind]. unfold shr.
  replace (8 - cs <? 0) with false by (symmetry; apply Z.ltb_ge; lia).
  cbn [bind]. f_equal.
  change (Z.shiftr (nth 0 (Sha256.sum256 (bigEndian es cand)) 0) (8 - cs))
    with (checksumOf cs es cand).
  destruct (completionIndex_add cs es i cand Hcs) as (_ & -> & ->).
  reflexivity.
Qed.

Lemma checksumLoop_words (cs : Z) (es : nat) :
  0 <= cs <= 8 ->
  forall n i cand acc,
    0 <= i -> i + Z.of_nat n <= 2 ^ (11 - cs) ->
    0 <= cand -> cand + Z.of_nat n <= 256 ^ Z.of_nat es ->
    exists l,
      checksumLoop wordlist n cs es i cand acc = Ok (acc ++ l) /\
      List.length l = n /\
      forall j, (j < n)%nat ->
        exists w, nth_error l j = Some w /\
                  passOk wordlist cs es (i + Z.of_nat j) (cand + Z.of_nat j) w.
Proof.
  intros Hcs. induction n as [|n IH]; intros i cand acc Hi Hin Hc Hcn.
  - exists []; cbn [checksumLoop]. rewrite app_nil_r.
    repeat split. intros j Hj; inversion Hj.
  - cbn [checksumLoop].
    rewrite checkwordIndex_ok by lia. cbn [bind].
    pose proof (completionIndex_range cs es i cand Hcs ltac:(lia)) as Hidx.
    destruct (index_in_range wordlist (completionIndex cs es i cand))
      as (w & Hw & Hnth); [rewrite wordlist_length; lia|].
    rewrite Hw. cbn [bind].
    destruct (IH (i + 1) (cand + 1) (acc ++ [w])) as (l & Hl & Hlen & Hall);
      try lia.
    exists (w :: l). split; [|split].
    + rewrite Hl, <- app_assoc. reflexivity.
    + cbn [List.length]. now rewrite Hlen.
    + intros [|j] Hj.
      * exists w. cbn [nth_error]. rewrite !Z.add_0_r.
        split; [reflexivity|]. split; [|split; [|split]]; try assumption.
        apply checkwordIndex_ok; lia.
      * destruct (Hall j ltac:(lia)) as (w' & Hw' & Hpass).
        exists w'. cbn [nth_error]. split; [exact Hw'|].
        replace (i + Z.of_nat (S j)) with (i + 1 + Z.of_nat j) by lia.
        replace (cand + Z.of_nat (S j)) with (cand + 1 + Z.of_nat j) by lia.
        exact Hpass.
Qed.

(** The calls of [bip39ChecksumWords] on phrases of 11 and of 23 words. *)
Lemma bip39ChecksumWords_11 (ws : list string) (E : Z) :
  List.length ws = 11%nat -> bip39Entropy wordlist ws = Ok E ->
  bip39ChecksumWords wordlist ws
  = checksumLoop wordlist 128 4 16 0 (Z.shiftl E 7) [].
Proof.
  intros Hlen HE. unfold bip39ChecksumWords. rewrite HE, Hlen. reflexivity.
Qed.

Lemma bip39ChecksumWords_23 (ws : list string) (E : Z) :
  List.length ws = 23%nat -> bip39Entropy wordlist ws = Ok E ->
  bip39ChecksumWords wordlist ws
  = checksumLoop wordlist 8 8 32 0 (Z.shiftl E 3) [].
Proof.
  intros Hlen HE. unfold bip39ChecksumWords. rewrite HE, Hlen. reflexivity.
Qed.

(** The enumeration on a packed entropy [E] that leaves room for the
    unknown bits: pass [j] works on [(E << unknownBits) + j]. *)
Lemma checksumLoop_from_base (E cs : Z) (es n : nat) :
  0 <= cs <= 8 -> Z.of_nat n = 2 ^ (11 - cs) ->
  0 <= E -> (E + 1) * 2 ^ (11 - cs) <= 256 ^ Z.of_nat es ->
  exists l,
    checksumLoop wordlist n cs es 0 (Z.shiftl E (11 - cs)) [] = Ok l /\
    List.length l = n /\
    forall j, (j < n)%nat ->
      exists w, nth_error l j = Some w /\
                passOk wordlist cs es (Z.of_nat j)
                  (Z.shiftl E (11 - cs) + Z.of_nat j) w.
Proof.
  intros Hcs Hn HE Hfit.
  assert (Hbase : Z.shiftl E (11 - cs) = E * 2 ^ (11 - cs))
    by (apply Z.shiftl_mul_pow2; lia).
  assert (0 < 2 ^ (11 - cs)) by (apply Z.pow_pos_nonneg; lia).
  destruct (checksumLoop_words cs es Hcs n 0 (Z.shiftl E (11 - cs)) [])
    as (l & Hl & Hlen & Hall); try nia.
  exists l. split; [exact Hl|]. split; [exact Hlen|].
  intros j Hj. destruct (Hall j Hj) as (w & Hw & Hpass).
  exists w. now rewrite Z.add_0_l in Hpass.
Qed.

(** A completion word makes a phrase whose checksum bits match. *)
Lemma completion_matches (ws : list string) (E cs : Z) (es : nat)
    (j : Z) (w : string) :
  bip39Entropy wordlist ws = Ok E ->
  Z.of_nat (List.length (ws ++ [w])) / 3 = cs ->
  Z.to_nat ((Z.of_nat (List.length (ws ++ [w])) * 11 - cs) / 8) = es ->
  0 <= cs <= 8 ->
  passOk wordlist cs es j (Z.shiftl E (11 - cs) + j) w ->
  checksumBitsMatch wordlist (ws ++ [w]) = true.
Proof.
  intros HE Hcs Hes Hrange (_ & Hidx & _ & Hnth).
  set (cand := Z.shiftl E (11 - cs) + j) in *.
  assert (Hw : GetWordIndex wordlist w = Some (completionIndex cs es j cand)).
  { rewrite (GetWordIndex_nth _ w Hnth). f_equal. lia. }
  unfold checksumBitsMatch.
  unfold bip39Entropy in *. rewrite bip39EntropyLoop_app, HE.
  cbn [bind bip39EntropyLoop]. rewrite Hw.
  rewrite Hcs, Hes.
  rewrite lor_shiftl_add by (change (2 ^ 11) with 2048; lia).
  change (2 ^ 11) with 2048.
  destruct (completionIndex_add cs es j cand Hrange) as (Hc & Hadd & _).
  rewrite Hadd.
  destruct (split_packed E j (checksumOf cs es cand) cs ltac:(lia) Hc)
    as [-> ->].
  apply Z.eqb_eq. unfold checksumOf, cand.
  now rewrite Z.shiftl_mul_pow2 by lia.
Qed.

(** C3.  When some word of the input is not in the vocabulary,
    [bip39Entropy] and with it [bip39ChecksumWords] return the invalid-word
    error that carries the first such word, and no words. *)
Theorem bip39ChecksumWords_unknown_word (ws : list string) :
  Exists (fun w => ~ In w wordlist) ws ->
  exists pre w post,
    ws = pre ++ w :: post /\
    Forall (fun v => In v wordlist) pre /\ ~ In w wordlist /\
    bip39Entropy wordlist ws = Err (ErrInvalidWord w) /\
    bip39ChecksumWords wordlist ws = Err (ErrInvalidWord w).
Proof.
  intros Hex.
  assert (Hsplit : exists pre w post,
             ws = pre ++ w :: post /\
             Forall (fun v => In v wordlist) pre /\ ~ In w wordlist).
  { induction ws as [|v ws IH]; [inversion Hex|].
    destruct (in_dec string_dec v wordlist) as [Hv | Hv].
    - inversion Hex as [? ? Hbad | ? ? Hlater]; subst; [contradiction|].
      destruct (IH Hlater) as (pre & w & post & -> & Hpre & Hw).
      exists (v :: pre), w, post. repeat split; [now constructor | exact Hw].
    - exists [], v, ws. repeat split; [constructor | exact Hv]. }
  destruct Hsplit as (pre & w & post & -> & Hpre & Hw).
  exists pre, w, post. repeat split; try assumption.
  - apply bip39EntropyLoop_unknown; assumption.
  - unfold bip39ChecksumWords, bip39Entropy.
    now rewrite bip39EntropyLoop_unknown.
Qed.

(** C1.  For a partial phrase of known words, [bip39ChecksumWords] returns
    128 words when the phrase has 11 words and 8 words when it has 23; each
    of them, put after the partial phrase, makes a phrase whose trailing
    checksum bits are the top bits of the first byte of SHA-256 of its
    entropy bytes. *)
Theorem bip39ChecksumWords_candidates (ws : list string) :
  Forall (fun w => In w wordlist) ws ->
  (List.length ws = 11%nat ->
   exists l,
     bip39ChecksumWords wordlist ws = Ok l /\ List.length l = 128%nat /\
     Forall (fun w => checksumBitsMatch wordlist (ws ++ [w]) = true) l) /\
  (List.length ws = 23%nat ->
   exists l,
     bip39ChecksumWords wordlist ws = Ok l /\ List.length l = 8%nat /\
     Forall (fun w => checksumBitsMatch wordlist (ws ++ [w]) = true) l).
Proof.
  intros Hknown.
  destruct (bip39Entropy_known ws Hknown) as (E & HE & HE0 & HEhi).
  split; intros Hlen; rewrite Hlen in HEhi.
  - rewrite (bip39ChecksumWords_11 ws E Hlen HE).
    destruct (checksumLoop_from_base E 4 16 128) as (l & Hl & Hn & Hall);
      [lia | reflexivity | exact HE0 | |].
    { change (11 - 4) with 7. change (2 ^ 7) with 128.
      change (256 ^ Z.of_nat 16) with (2 ^ 121 * 128).
      change (11 * Z.of_nat 11) with 121 in HEhi. lia. }
    exists l. split; [exact Hl|]. split; [exact Hn|].
    apply Forall_forall. intros w Hw.
    apply In_nth_error in Hw. destruct Hw as (j & Hj).
    assert (Hjn : (j < 128)%nat)
      by (rewrite <- Hn; apply nth_error_Some; congruence).
    destruct (Hall j Hjn) as (w' & Hw' & Hpass).
    assert (w' = w) by congruence; subst w'.
    apply (completion_matches ws E 4 16 (Z.of_nat j) w HE);
      [| | lia | exact Hpass];
      rewrite length_app, Hlen; reflexivity.
  - rewrite (bip39ChecksumWords_23 ws E Hlen HE).
    destruct (checksumLoop_from_base E 8 32 8) as (l & Hl & Hn & Hall);
      [lia | reflexivity | exact HE0 | |].
    { change (11 - 8) with 3. change (2 ^ 3) with 8.
      change (256 ^ Z.of_nat 32) with (2 ^ 253 * 8).
      change (11 * Z.of_nat 23) with 253 in HEhi. lia. }
    exists l. split; [exact Hl|]. split; [exact Hn|].
    apply Forall_forall. intros w Hw.
    apply In_nth_error in Hw. destruct Hw as (j & Hj).
    assert (Hjn : (j < 8)%nat)
      by (rewrite <- Hn; apply nth_error_Some; congruence).
    destruct (Hall j Hjn) as (w' & Hw' & Hpass).
    assert (w' = w) by congruence; subst w'.
    apply (completion_matches ws E 8 32 (Z.of_nat j) w HE);
      [| | lia | exact Hpass];
      rewrite length_app, Hlen; reflexivity.
Qed.

(** Every pass of the enumeration, for phrases of 11 and of 23 words. *)
Lemma enumeration_passes (ws : list string) :
  Forall (fun w => In w wordlist) ws ->
  List.length ws = 11%nat \/ List.length ws = 23%nat ->
  exists packed l,
    bip39Entropy wordlist ws = Ok packed /\
    bip39ChecksumWords wordlist ws = Ok l /\
    let size := Z.of_nat (List.length ws) + 1 in
    let checksumBits := size / 3 in
    let entropySize := Z.to_nat ((size * 11 - checksumBits) / 8) in
    let unknownBits := 11 - checksumBits in
    Z.of_nat (List.length l) = 2 ^ unknownBits /\
    forall i, 0 <= i < 2 ^ unknownBits ->
      exists w,
        nth_error l (Z.to_nat i) = Some w /\
        passOk wordlist checksumBits entropySize i
          (Z.shiftl packed unknownBits + i) w.
Proof.
  intros Hknown Hlen.
  destruct (bip39Entropy_known ws Hknown) as (E & HE & HE0 & HEhi).
  exists E.
  destruct Hlen as [Hlen | Hlen]; rewrite Hlen in *.
  - rewrite (bip39ChecksumWords_11 ws E Hlen HE).
    destruct (checksumLoop_from_base E 4 16 128) as (l & Hl & Hn & Hall);
      [lia | reflexivity | exact HE0 | |].
    { change (11 - 4) with 7. change (2 ^ 7) with 128.
      change (256 ^ Z.of_nat 16) with (2 ^ 121 * 128).
      change (11 * Z.of_nat 11) with 121 in HEhi. lia. }
    exists l. split; [exact HE|]. split; [exact Hl|].
    change (11 - 4) with 7 in *.
    change (Z.of_nat (List.length l) = 128 /\
            forall i, 0 <= i < 128 ->
              exists w, nth_error l (Z.to_nat i) = Some w /\
                        passOk wordlist 4 16 i (Z.shiftl E 7 + i) w).
    split; [rewrite Hn; reflexivity|].
    intros i Hi. destruct (Hall (Z.to_nat i) ltac:(lia)) as (w & Hw & Hpass).
    exists w. rewrite Z2Nat.id in Hpass by lia. now split.
  - rewrite (bip39ChecksumWords_23 ws E Hlen HE).
    destruct (checksumLoop_from_base E 8 32 8) as (l & Hl & Hn & Hall);
      [lia | reflexivity | exact HE0 | |].
    { change (11 - 8) with 3. change (2 ^ 3) with 8.
      change (256 ^ Z.of_nat 32) with (2 ^ 253 * 8).
      change (11 * Z.of_nat 23) with 253 in HEhi. lia. }
    exists l. split; [exact HE|]. split; [exact Hl|].
    change (11 - 8) with 3 in *.
    change (Z.of_nat (List.length l) = 8 /\
            forall i, 0 <= i < 8 ->
              exists w, nth_error l (Z.to_nat i) = Some w /\
                        passOk wordlist 8 32 i (Z.shiftl E 3 + i) w).
    split; [rewrite Hn; reflexivity|].
    intros i Hi. destruct (Hall (Z.to_nat i) ltac:(lia)) as (w & Hw & Hpass).
    exists w. rewrite Z2Nat.id in Hpass by lia. now split.
Qed.

(** C2.  For a partial phrase of 11 or 23 known words and every
    enumeration index [i] below [2^unknownBits], the word at position [i] of
    the result is the vocabulary word at index [(i << checksumBits) | c],
    where [c] is the top [checksumBits] bits of the first byte of SHA-256
    over the [entropySize]-byte big-endian rendering of
    [(packed << unknownBits) + i]; the result has [2^unknownBits] words, in
    the order of [i]. *)
Theorem bip39ChecksumWords_enumeration (ws : list string) :
  Forall (fun w => In w wordlist) ws ->
  List.length ws = 11%nat \/ List.length ws = 23%nat ->
  exists packed l,
    bip39Entropy wordlist ws = Ok packed /\
    bip39ChecksumWords wordlist ws = Ok l /\
    let size := Z.of_nat (List.length ws) + 1 in
    let checksumBits := size / 3 in
    let entropySize := Z.to_nat ((size * 11 - checksumBits) / 8) in
    let unknownBits := 11 - checksumBits in
    Z.of_nat (List.length l) = 2 ^ unknownBits /\
    forall i, 0 <= i < 2 ^ unknownBits ->
      exists w,
        nth_error l (Z.to_nat i) = Some w /\
        nth_error wordlist
          (Z.to_nat
             (Z.lor (Z.shiftl i checksumBits)
                (Z.shiftr
                   (nth 0
                      (Sha256.sum256
                         (bigEndian entropySize
                            (Z.shiftl packed unknownBits + i))) 0)
                   (8 - checksumBits))))
        = Some w.
Proof.
  intros Hknown Hlen.
  destruct (enumeration_passes ws Hknown Hlen)
    as (packed & l & HE & Hl & Hn & Hall).
  exists packed, l. split; [exact HE|]. split; [exact Hl|].
  cbv zeta. split; [exact Hn|].
  intros i Hi. destruct (Hall i Hi) as (w & Hw & _ & _ & _ & Hnth).
  exists w. split; [exact Hw | exact Hnth].
Qed.

Lemma passOk_index (cs : Z) (es : nat) (i cand : Z) (w : string) :
  0 <= cs <= 8 -> passOk wordlist cs es i cand w ->
  exists idx,
    checkwordIndex cs es i cand = Ok idx /\
    idx = Z.shiftl i cs + checksumOf cs es cand /\
    0 <= idx < 2048 /\
    index wordlist idx = Ok w.
Proof.
  intros Hcs (Hstep & Hrange & Hidx & _).
  exists (completionIndex cs es i cand).
  repeat split; try assumption; try lia.
  destruct (completionIndex_add cs es i cand Hcs) as (_ & -> & ->).
  reflexivity.
Qed.

(** C10.  For a partial phrase of 11 or 23 known words, every pass [i] of
    the loop computes an index [(i << checksumBits) + checksum] below 2048:
    the lookup [wordlist[idx]] is in bounds, and the call returns its words
    without a panic. *)
Theorem bip39ChecksumWords_index_in_bounds (ws : list string) :
  Forall (fun w => In w wordlist) ws ->
  List.length ws = 11%nat \/ List.length ws = 23%nat ->
  exists packed l,
    bip39Entropy wordlist ws = Ok packed /\
    bip39ChecksumWords wordlist ws = Ok l /\
    let size := Z.of_nat (List.length ws) + 1 in
    let checksumBits := Z.quot size 3 in
    let entropySize := Z.to_nat (Z.quot (size * 11 - checksumBits) 8) in
    let entropyToFill := 11 - checksumBits in
    forall i, 0 <= i < pow2int entropyToFill ->
      exists idx w,
        checkwordIndex checksumBits entropySize i
          (Z.shiftl packed entropyToFill + i) = Ok idx /\
        idx = Z.shiftl i checksumBits
              + checksumOf checksumBits entropySize
                  (Z.shiftl packed entropyToFill + i) /\
        0 <= idx < 2048 /\
        index wordlist idx = Ok w /\
        nth_error l (Z.to_nat i) = Some w.
Proof.
  intros Hknown Hlen.
  destruct (enumeration_passes ws Hknown Hlen)
    as (packed & l & HE & Hl & _ & Hall).
  exists packed, l. split; [exact HE|]. split; [exact Hl|].
  destruct Hlen as [Hlen | Hlen]; rewrite Hlen in *.
  - change (forall i, 0 <= i < 128 ->
              exists w, nth_error l (Z.to_nat i) = Some w /\
                        passOk wordlist 4 16 i (Z.shiftl packed 7 + i) w)
      in Hall.
    change (forall i, 0 <= i < 128 ->
              exists idx w,
                checkwordIndex 4 16 i (Z.shiftl packed 7 + i) = Ok idx /\
                idx = Z.shiftl i 4
                      + checksumOf 4 16 (Z.shiftl packed 7 + i) /\
                0 <= idx < 2048 /\
                index wordlist idx = Ok w /\
                nth_error l (Z.to_nat i) = Some w).
    intros i Hi. destruct (Hall i Hi) as (w & Hw & Hpass).
    destruct (passOk_index 4 16 i _ w ltac:(lia) Hpass) as (idx & H).
    exists idx, w. tauto.
  - change (forall i, 0 <= i < 8 ->
              exists w, nth_error l (Z.to_nat i) = Some w /\
                        passOk wordlist 8 32 i (Z.shiftl packed 3 + i) w)
      in Hall.
    change (forall i, 0 <= i < 8 ->
              exists idx w,
                checkwordIndex 8 32 i (Z.shiftl packed 3 + i) = Ok idx /\
                idx = Z.shiftl i 8
                      + checksumOf 8 32 (Z.shiftl packed 3 + i) /\
                0 <= idx < 2048 /\
                index wordlist idx = Ok w /\
                nth_error l (Z.to_nat i) = Some w).
    intros i Hi. destruct (Hall i Hi) as (w & Hw & Hpass).
    destruct (passOk_index 8 32 i _ w ltac:(lia) Hpass) as (idx & H).
    exists idx, w. tauto.
Qed.

End VocabularyFacts.

(** ** Running the model *)

(** With all-zero entropy (the phrase made of the first vocabulary word),
    the first passes give the indices 3, 23 and 38 for 11 words, and the
    first pass gives 102 for 23 words: in the BIP-39 English table these are
    the words the repository's test expects first ("about", "actual", "age")
    and the well-known last word "art". *)
Example checkwordIndex_zero_entropy :
  map (fun i => checkwordIndex 4 16 i (Z.shiftl 0 7 + i)) [0; 1; 2]
  = [Ok 3; Ok 23; Ok 38] /\
  checkwordIndex 8 32 0 (Z.shiftl 0 3 + 0) = Ok 102.
Proof. vm_compute. split; reflexivity. Qed.

Example bip39ChecksumWords_sample_23 :
  bip39ChecksumWords sampleWordlist (repeat "aaa" 23)
  = Ok ["agg"; "bom"; "cjc"; "dnj"; "eod"; "fjg"; "gnb"; "hei"].
Proof. vm_compute. reflexivity. Qed.

(** Outside the lengths the caller lets through, the enumeration can
    panic: an empty phrase asks for 2048 passes on a one-byte buffer. *)
Example bip39ChecksumWords_empty_phrase :
  bip39ChecksumWords sampleWordlist [] = Panic BufferTooSmall.
Proof. vm_compute. reflexivity. Qed.

Lemma unknown_word_sound (vocabulary : list string) (w : string) :
  existsb (String.eqb w) vocabulary = false -> ~ In w vocabulary.
Proof.
  intros H Hin.
  assert (existsb (String.eqb w) vocabulary = true); [|congruence].
  apply existsb_exists. exists w; split; [exact Hin | apply String.eqb_refl].
Qed.

Lemma sample_known_11 :
  Forall (fun w => In w sampleWordlist) (repeat "abc" 11).
Proof. apply allKnownb_sound. vm_compute. reflexivity. Qed.

Lemma sample_known_23 :
  Forall (fun w => In w sampleWordlist) (repeat "abc" 23).
Proof. apply allKnownb_sound. vm_compute. reflexivity. Qed.

Lemma sample_unknown : ~ In "zebra" sampleWordlist.
Proof. apply unknown_word_sound. vm_compute. reflexivity. Qed.

Lemma bip39ChecksumWords_candidates_witness :
  List.length sampleWordlist = 2048%nat /\
  NoDup sampleWordlist /\
  Forall (fun w => In w sampleWordlist) (repeat "abc" 11) /\
  List.length (repeat "abc" 11) = 11%nat /\
  exists l,
    bip39ChecksumWords sampleWordlist (repeat "abc" 11) = Ok l /\
    List.length l = 128%nat /\
    Forall (fun w => checksumBitsMatch sampleWordlist
                       (repeat "abc" 11 ++ [w]) = true) l.
Proof.
  split; [reflexivity|]. split; [exact sampleWordlist_distinct|].
  split; [exact sample_known_11|]. split; [reflexivity|].
  apply (proj1 (bip39ChecksumWords_candidates sampleWordlist
                  sampleWordlist_length sampleWordlist_distinct
                  (repeat "abc" 11) sample_known_11)).
  reflexivity.
Defined.

Lemma bip39ChecksumWords_enumeration_witness :
  List.length sampleWordlist = 2048%nat /\
  Forall (fun w => In w sampleWordlist) (repeat "abc" 23) /\
  (List.length (repeat "abc" 23) = 11%nat \/
   List.length (repeat "abc" 23) = 23%nat) /\
  exists packed l,
    bip39Entropy sampleWordlist (repeat "abc" 23) = Ok packed /\
    bip39ChecksumWords sampleWordlist (repeat "abc" 23) = Ok l /\
    Z.of_nat (List.length l) = 8 /\
    forall i, 0 <= i < 8 ->
      exists w,
        nth_error l (Z.to_nat i) = Some w /\
        nth_error sampleWordlist
          (Z.to_nat
             (Z.lor (Z.shiftl i 8)
                (Z.shiftr
                   (nth 0
                      (Sha256.sum256
                         (bigEndian 32 (Z.shiftl packed 3 + i))) 0)
                   (8 - 8))))
        = Some w.
Proof.
  split; [reflexivity|]. split; [exact sample_known_23|].
  split; [right; reflexivity|].
  exact (bip39ChecksumWords_enumeration sampleWordlist sampleWordlist_length
           (repeat "abc" 23) sample_known_23 (or_intror eq_refl)).
Defined.

Lemma bip39ChecksumWords_index_in_bounds_witness :
  List.length sampleWordlist = 2048%nat /\
  Forall (fun w => In w sampleWordlist) (repeat "abc" 11) /\
  (List.length (repeat "abc" 11) = 11%nat \/
   List.length (repeat "abc" 11) = 23%nat) /\
  exists packed l,
    bip39Entropy sampleWordlist (repeat "abc" 11) = Ok packed /\
    bip39ChecksumWords sampleWordlist (repeat "abc" 11) = Ok l /\
    forall i, 0 <= i < 128 ->
      exists idx w,
        checkwordIndex 4 16 i (Z.shiftl packed 7 + i) = Ok idx /\
        idx = Z.shiftl i 4 + checksumOf 4 16 (Z.shiftl packed 7 + i) /\
        0 <= idx < 2048 /\
        index sampleWordlist idx = Ok w /\
        nth_error l (Z.to_nat i) = Some w.
Proof.
  split; [reflexivity|]. split; [exact sample_known_11|].
  split; [left; reflexivity|].
  exact (bip39ChecksumWords_index_in_bounds sampleWordlist
           sampleWordlist_length (repeat "abc" 11) sample_known_11
           (or_introl eq_refl)).
Defined.

Lemma bip39ChecksumWords_unknown_word_witness :
  Exists (fun w => ~ In w sampleWordlist) ["abc"; "zebra"; "abd"; "zoo"] /\
  exists pre w post,
    ["abc"; "zebra"; "abd"; "zoo"] = pre ++ w :: post /\
    Forall (fun v => In v sampleWordlist) pre /\ ~ In w sampleWordlist /\
    bip39Entropy sampleWordlist ["abc"; "zebra"; "abd"; "zoo"]
    = Err (ErrInvalidWord w) /\
    bip39ChecksumWords sampleWordlist ["abc"; "zebra"; "abd"; "zoo"]
    = Err (ErrInvalidWord w).
Proof.
  assert (H : Exists (fun w => ~ In w sampleWordlist)
                ["abc"; "zebra"; "abd"; "zoo"])
    by (apply Exists_cons_tl, Exists_cons_hd, sample_unknown).
  split; [exact H|].
  exact (bip39ChecksumWords_unknown_word sampleWordlist _ H).
Defined.

Example bip39ChecksumWords_unknown_sample :
  bip39ChecksumWords sampleWordlist ["abc"; "zebra"; "abd"; "zoo"]
  = Err (ErrInvalidWord "zebra").
Proof. vm_compute. reflexivity. Qed.

(** * Further properties of the same functions *)

(** ** [convertWordsToShares], continued *)

Lemma convertWordsToShares_outcome (words : list string) :
  (exists shares, convertWordsToShares words = Ok shares) \/
  (exists e, convertWordsToShares words = Err e).
Proof.
  unfold convertWordsToShares.
  destruct (List.length words =? 0)%nat; [right; now eexists|].
  destruct (List.length words mod 33 =? 0)%nat eqn:E33.
  - apply Nat.eqb_eq in E33. pick_size.
    destruct (convertLoop_partition 33 words) as (s & -> & _);
      [lia | exact E33 | left; now exists s].
  - destruct (List.length words mod 20 =? 0)%nat eqn:E20.
    + apply Nat.eqb_eq in E20. pick_size.
      destruct (convertLoop_partition 20 words) as (s & -> & _);
        [lia | exact E20 | left; now exists s].
    + pick_size. right; now eexists.
Qed.

(** X1.  [convertWordsToShares] returns normally on every input, with
    shares or with an error: the slice [words[i:i+mlen]] of its loop is
    never out of range. *)
Theorem convertWordsToShares_returns (words : list string) :
  (exists shares, convertWordsToShares words = Ok shares) \/
  (exists e, convertWordsToShares words = Err e).
Proof. exact (convertWordsToShares_outcome words). Qed.

(** What a successful call has done, whichever length it chose. *)
Lemma convertWordsToShares_ok_inv (words shares : list string) :
  convertWordsToShares words = Ok shares ->
  words <> [] /\
  (partitioned 33 words shares \/ partitioned 20 words shares).
Proof.
  unfold convertWordsToShares. intros H.
  destruct words as [|w words]; [discriminate|].
  split; [discriminate|]. revert H.
  generalize (w :: words) as l; intros l.
  destruct (List.length l =? 0)%nat; [discriminate|].
  destruct (List.length l mod 33 =? 0)%nat eqn:E33.
  - apply Nat.eqb_eq in E33. pick_size.
    destruct (convertLoop_partition 33 l) as (s & -> & Hs);
      [lia | exact E33 |].
    intros H; injection H as <-. now left.
  - destruct (List.length l mod 20 =? 0)%nat eqn:E20; [|discriminate].
    apply Nat.eqb_eq in E20. pick_size.
    destruct (convertLoop_partition 20 l) as (s & -> & Hs);
      [lia | exact E20 |].
    intros H; injection H as <-. now right.
Qed.

Lemma partitioned_words (mlen : nat) (words shares : list string) :
  (0 < mlen)%nat -> Forall spaceFree words ->
  partitioned mlen words shares ->
  flat_map SplitSpace shares = words /\
  Forall (fun s => List.length (SplitSpace s) = mlen) shares /\
  (List.length shares * mlen = List.length words)%nat.
Proof.
  intros Hm Hfree (chunks & <- & Hall & ->).
  assert (Hsplit : map SplitSpace (map (fun c => Join c " ") chunks) = chunks).
  { rewrite map_map. rewrite <- (map_id chunks) at 2.
    apply map_ext_in. intros c Hc. apply SplitSpace_Join.
    - rewrite Forall_forall in Hall. specialize (Hall c Hc).
      destruct c; [simpl in Hall; lia | discriminate].
    - rewrite Forall_forall in *. intros w Hw. apply Hfree.
      apply in_concat. now exists c. }
  split; [|split].
  - now rewrite flat_map_concat_map, Hsplit.
  - rewrite <- Hsplit in Hall at 1. rewrite Forall_map in Hall. exact Hall.
  - rewrite length_map. symmetry. now apply length_concat_uniform.
Qed.

(** X2.  When [convertWordsToShares] succeeds on words without spaces, the
    shares hold the same words in the same order, and either every share
    has 33 words or every share has 20 words. *)
Theorem convertWordsToShares_keeps_words (words shares : list string) :
  Forall spaceFree words ->
  convertWordsToShares words = Ok shares ->
  flat_map SplitSpace shares = words /\
  (Forall (fun s => List.length (SplitSpace s) = 33%nat) shares /\
   (List.length shares * 33 = List.length words)%nat \/
   Forall (fun s => List.length (SplitSpace s) = 20%nat) shares /\
   (List.length shares * 20 = List.length words)%nat).
Proof.
  intros Hfree Hok.
  destruct (convertWordsToShares_ok_inv words shares Hok) as (_ & [H | H]).
  - destruct (partitioned_words 33 words shares ltac:(lia) Hfree H)
      as (Hw & Hl & Hn). split; [exact Hw | left; now split].
  - destruct (partitioned_words 20 words shares ltac:(lia) Hfree H)
      as (Hw & Hl & Hn). split; [exact Hw | right; now split].
Qed.

Lemma spaceFree_word : spaceFree "word".
Proof.
  intros c Hc. simpl in Hc.
  repeat (destruct Hc as [<- | Hc]; [discriminate|]). destruct Hc.
Qed.

Lemma convertWordsToShares_keeps_words_witness :
  Forall spaceFree (repeat "word" 40) /\
  convertWordsToShares (repeat "word" 40)
  = Ok (repeat (Join (repeat "word" 20) " ") 2) /\
  flat_map SplitSpace (repeat (Join (repeat "word" 20) " ") 2)
  = repeat "word" 40.
Proof.
  assert (Hfree : Forall spaceFree (repeat "word" 40))
    by (apply Forall_forall; intros w Hw; apply repeat_spec in Hw; subst;
        exact spaceFree_word).
  split; [exact Hfree|]. split; [reflexivity|].
  exact (proj1 (convertWordsToShares_keeps_words (repeat "word" 40)
                  (repeat (Join (repeat "word" 20) " ") 2) Hfree eq_refl)).
Defined.

(** ** [parseGroups], continued *)

(** X3.  [parseGroups] on two token lists in a row is [parseGroups] on the
    first, then on the second, with the pairs put together; an error of the
    first list comes before any look at the second. *)
Theorem parseGroups_app (gs1 gs2 : list string) :
  parseGroups (gs1 ++ gs2)
  = (groups1 <- parseGroups gs1 ;;
     groups2 <- parseGroups gs2 ;;
     Ok (groups1 ++ groups2)).
Proof.
  unfold parseGroups.
  induction gs1 as [|g gs1 IH]; simpl.
  - destruct (parseGroupsLoop gs2 []); reflexivity.
  - destruct (FindStringSubmatch g) as [[m1 m2]|]; [|reflexivity].
    destruct ((Atoi m1 >? GroupLimit) || (Atoi m2 >? GroupLimit)
              || (Atoi m1 >? Atoi m2)); [reflexivity|].
    rewrite (parseGroupsLoop_acc (gs1 ++ gs2)), (parseGroupsLoop_acc gs1), IH.
    destruct (parseGroupsLoop gs1 []); simpl; try reflexivity.
    destruct (parseGroupsLoop gs2 []); simpl; try reflexivity.
Qed.

(** ** [readShareMnemonics], continued *)

Lemma convertWordsToShares_nonempty (words shares : list string) :
  convertWordsToShares words = Ok shares -> shares <> [].
Proof.
  intros H. apply convertWordsToShares_ok_inv in H.
  destruct H as (Hne & [(chunks & Hcat & _ & ->) | (chunks & Hcat & _ & ->)]);
    destruct chunks; simpl in *; congruence.
Qed.

Section NormaliserMore.

Variable ToLower : string -> string.
Variable TrimSpace : string -> string.

(** The entries [readShareMnemonics] has after its first two steps. *)
Lemma readShareMnemonics_assembled (ctx : Context) (args : list string) :
  readShareMnemonics ToLower TrimSpace ctx args
  = (mnemonics <-
       match args with
       | [] =>
           match failure (reader ctx) with
           | Some cause => Err (ErrScanning cause)
           | None =>
               Ok (map (fun text => ToLower (TrimSpace text))
                     (lines (reader ctx)))
           end
       | _ :: _ =>
           Ok (if (List.length args <? 20)%nat then map ToLower args
               else [ToLower (Join args " ")])
       end ;;
     first <- index mnemonics 0 ;;
     if negb (Contains (TrimSpace first) " ")
     then convertWordsToShares mnemonics else Ok mnemonics).
Proof.
  unfold readShareMnemonics.
  destruct args as [|a args].
  - cbn [List.length Nat.ltb Nat.leb andb Nat.eqb].
    rewrite fold_append_map. reflexivity.
  - change (0 <? List.length (a :: args))%nat with true. cbn [andb].
    destruct (List.length (a :: args) <? 20)%nat eqn:E.
    + rewrite fold_append_map. reflexivity.
    + replace (20 <=? List.length (a :: args))%nat with true
        by (symmetry; apply Nat.leb_le; apply Nat.ltb_ge in E; lia).
      reflexivity.
Qed.

(** X4.  A list [readShareMnemonics] returns is never empty. *)
Theorem readShareMnemonics_nonempty (ctx : Context) (args : list string)
    (mnemonics : list string) :
  readShareMnemonics ToLower TrimSpace ctx args = Ok mnemonics ->
  mnemonics <> [].
Proof.
  rewrite readShareMnemonics_assembled.
  match goal with
  | |- (mnemonics <- ?r ;; _) = _ -> _ => destruct r as [l| | |]
  end; try discriminate.
  cbn [bind]. destruct l as [|first rest]; [discriminate|].
  cbn [index Z.ltb Z.compare Z.to_nat nth_error bind].
  destruct (negb (Contains (TrimSpace first) " ")).
  - apply convertWordsToShares_nonempty.
  - intros H; injection H as <-; discriminate.
Qed.

(** X5.  With at least one argument token the auxiliary source plays no
    part: the outcome is the same whatever it holds. *)
Theorem readShareMnemonics_ignores_source (ctx1 ctx2 : Context)
    (args : list string) :
  args <> [] ->
  readShareMnemonics ToLower TrimSpace ctx1 args
  = readShareMnemonics ToLower TrimSpace ctx2 args.
Proof.
  intros Hne. rewrite !readShareMnemonics_assembled.
  destruct args; [congruence | reflexivity].
Qed.

(** X6.  [readShareMnemonics] panics in one situation only: no argument
    token, and an auxiliary source that ends without a line and without a
    failure. *)
Theorem readShareMnemonics_panics_iff (ctx : Context) (args : list string) :
  (exists p, readShareMnemonics ToLower TrimSpace ctx args = Panic p) <->
  args = [] /\ lines (reader ctx) = [] /\ failure (reader ctx) = None.
Proof.
  rewrite readShareMnemonics_assembled. split.
  - intros (p & H).
    assert (Hgo : forall l : list string, l <> [] ->
              (first <- index l 0 ;;
               if negb (Contains (TrimSpace first) " ")
               then convertWordsToShares l else Ok l) <> Panic p).
    { intros [|first rest] Hl; [congruence|].
      cbn [index Z.ltb Z.compare Z.to_nat nth_error bind].
      destruct (negb (Contains (TrimSpace first) " ")); [|discriminate].
      destruct (convertWordsToShares_outcome (first :: rest))
        as [(s & ->) | (e & ->)]; discriminate. }
    destruct args as [|a args].
    + destruct (failure (reader ctx)); [discriminate|].
      cbn [bind] in H.
      destruct (lines (reader ctx)) as [|t ts]; [tauto|].
      exfalso. revert H. apply Hgo. discriminate.
    + cbn [bind] in H. exfalso. revert H. apply Hgo.
      destruct (List.length (a :: args) <? 20)%nat; discriminate.
  - intros (-> & Hl & Hf). rewrite Hl, Hf. now exists IndexOutOfRange.
Qed.

End NormaliserMore.

Lemma readShareMnemonics_nonempty_witness :
  readShareMnemonics asciiToLower asciiTrimSpace
    (mkContext (sourceOf "")) ["Alpha Beta"; "gamma"]
  = Ok ["alpha beta"; "gamma"] /\
  ["alpha beta"; "gamma"] <> [].
Proof.
  split; [reflexivity|].
  exact (readShareMnemonics_nonempty asciiToLower asciiTrimSpace
           (mkContext (sourceOf "")) ["Alpha Beta"; "gamma"]
           ["alpha beta"; "gamma"] eq_refl).
Defined.

Lemma readShareMnemonics_ignores_source_witness :
  ["Alpha Beta"] <> [] /\
  readShareMnemonics asciiToLower asciiTrimSpace
    (mkContext (sourceOf "")) ["Alpha Beta"]
  = readShareMnemonics asciiToLower asciiTrimSpace
      (mkContext (mkSource ["x"] (Some "broken pipe"))) ["Alpha Beta"].
Proof.
  split; [discriminate|].
  apply (readShareMnemonics_ignores_source asciiToLower asciiTrimSpace).
  discriminate.
Defined.

(** ** [bip39Entropy], continued *)

Lemma indexFrom_nth_error (l : list string) (w : string) :
  forall i k, indexFrom i l w = Some k ->
              nth_error l (Z.to_nat (k - i)) = Some w.
Proof.
  induction l as [|v l IH]; intros i k; simpl; [discriminate|].
  destruct (String.eqb v w) eqn:E.
  - intros H; injection H as <-. apply String.eqb_eq in E; subst v.
    now rewrite Z.sub_diag.
  - intros H. pose proof (indexFrom_bounds l w _ _ H) as Hb.
    apply IH in H.
    replace (Z.to_nat (k - i)) with (S (Z.to_nat (k - (i + 1)))) by lia.
    exact H.
Qed.

Section EntropyFacts.

Variable wordlist : list string.
Hypothesis wordlist_length : List.length wordlist = 2048%nat.

Lemma GetWordIndex_word (w : string) (k : Z) :
  GetWordIndex wordlist w = Some k ->
  0 <= k < 2048 /\ nth_error wordlist (Z.to_nat k) = Some w.
Proof.
  intros H. split; [now apply (GetWordIndex_range wordlist wordlist_length w)|].
  apply indexFrom_nth_error in H. now rewrite Z.sub_0_r in H.
Qed.

(** The loop on known words: the accumulator moves up by 11 bits a word,
    and the words fill the room below it. *)
Lemma bip39EntropyLoop_shift (ws : list string) :
  Forall (fun w => In w wordlist) ws ->
  exists E0,
    0 <= E0 < 2 ^ (11 * Z.of_nat (List.length ws)) /\
    forall acc, 0 <= acc ->
      bip39EntropyLoop wordlist ws acc
      = Ok (acc * 2 ^ (11 * Z.of_nat (List.length ws)) + E0).
Proof.
  induction 1 as [|w ws Hw Hws IH].
  - exists 0. split; [cbn; lia|]. intros acc _. cbn. f_equal. lia.
  - destruct IH as (E0 & HE0 & IH).
    destruct (indexFrom_known wordlist w Hw 0) as (k & Hk).
    destruct (GetWordIndex_word w k Hk) as (Hrange & _).
    replace (11 * Z.of_nat (List.length (w :: ws)))
      with (11 + 11 * Z.of_nat (List.length ws))
      by (cbn [List.length]; lia).
    rewrite Z.pow_add_r by lia. change (2 ^ 11) with 2048.
    set (P := 2 ^ (11 * Z.of_nat (List.length ws))) in *.
    assert (0 < P) by (apply Z.pow_pos_nonneg; lia).
    exists (k * P + E0). split; [nia|].
    intros acc Hacc. cbn [bip39EntropyLoop].
    unfold GetWordIndex. rewrite Hk.
    rewrite lor_shiftl_add by (change (2 ^ 11) with 2048; lia).
    change (2 ^ 11) with 2048.
    rewrite IH by lia. f_equal. ring.
Qed.

(** X7.  Known words pack into a non-negative number of 11 bits a word:
    [bip39Entropy] succeeds on them with a value below [2^(11 * n)]. *)
Theorem bip39Entropy_bound (ws : list string) :
  Forall (fun w => In w wordlist) ws ->
  exists E,
    bip39Entropy wordlist ws = Ok E /\
    0 <= E < 2 ^ (11 * Z.of_nat (List.length ws)).
Proof.
  intros H. destruct (bip39EntropyLoop_shift ws H) as (E0 & HE0 & Hloop).
  exists E0. split; [|exact HE0].
  unfold bip39Entropy. rewrite Hloop by lia. f_equal; lia.
Qed.

(** X8.  Packing goes word by word from the most significant end: the value
    of two lists of known words in a row is the value of the first, moved up
    by 11 bits for every word of the second, plus the value of the second. *)
Theorem bip39Entropy_app (ws1 ws2 : list string) (E1 E2 : Z) :
  Forall (fun w => In w wordlist) ws2 ->
  bip39Entropy wordlist ws1 = Ok E1 ->
  bip39Entropy wordlist ws2 = Ok E2 ->
  bip39Entropy wordlist (ws1 ++ ws2)
  = Ok (Z.shiftl E1 (11 * Z.of_nat (List.length ws2)) + E2).
Proof.
  intros H2 HE1 HE2.
  assert (H0 : 0 <= E1).
  { clear - HE1 wordlist_length. unfold bip39Entropy in HE1.
    assert (Hgen : forall ws acc E, 0 <= acc ->
              bip39EntropyLoop wordlist ws acc = Ok E -> 0 <= E).
    { induction ws as [|w ws IH]; intros acc E Hacc; cbn [bip39EntropyLoop].
      - intros H; injection H as <-; exact Hacc.
      - destruct (GetWordIndex wordlist w) as [k|] eqn:Hk; [|discriminate].
        destruct (GetWordIndex_word w k Hk) as (Hrange & _).
        rewrite lor_shiftl_add by (change (2 ^ 11) with 2048; lia).
        apply IH. change (2 ^ 11) with 2048. lia. }
    exact (Hgen ws1 0 E1 ltac:(lia) HE1). }
  destruct (bip39EntropyLoop_shift ws2 H2) as (E0 & HE0 & Hloop).
  unfold bip39Entropy in *.
  rewrite bip39EntropyLoop_app, HE1. cbn [bind].
  rewrite Hloop in HE2 by lia. injection HE2 as <-.
  rewrite Hloop by exact H0.
  rewrite Z.shiftl_mul_pow2 by lia. f_equal; lia.
Qed.

Lemma packed_word_at (ws : list string) (E : Z) (k : nat) (w : string) :
  Forall (fun v => In v wordlist) ws ->
  bip39Entropy wordlist ws = Ok E ->
  nth_error ws k = Some w ->
  nth_error wordlist
    (Z.to_nat
       (Z.land (Z.shiftr E (11 * (Z.of_nat (List.length ws) - 1 - Z.of_nat k)))
               2047))
  = Some w.
Proof.
  intros Hknown HE Hk.
  destruct (nth_error_split ws k Hk) as (pre & post & -> & Hlen).
  apply Forall_app in Hknown. destruct Hknown as (Hpre & Hpost).
  inversion Hpost as [|? ? Hw Hpost']; subst.
  destruct (bip39EntropyLoop_shift pre Hpre) as (Epre & HEpre & Hloop_pre).
  destruct (bip39EntropyLoop_shift post Hpost')
    as (Epost & HEpost & Hloop_post).
  destruct (indexFrom_known wordlist w Hw 0) as (idx & Hidx).
  destruct (GetWordIndex_word w idx Hidx) as (Hrange & Hnth).
  set (P := 2 ^ (11 * Z.of_nat (List.length post))) in *.
  assert (HP : 0 < P) by (apply Z.pow_pos_nonneg; lia).
  assert (HE' : bip39Entropy wordlist (pre ++ w :: post)
                = Ok (Epost + (Epre * 2048 + idx) * P)).
  { unfold bip39Entropy.
    rewrite bip39EntropyLoop_app, Hloop_pre by lia.
    cbn [bind bip39EntropyLoop]. unfold GetWordIndex. rewrite Hidx.
    rewrite lor_shiftl_add by (change (2 ^ 11) with 2048; lia).
    change (2 ^ 11) with 2048.
    rewrite Hloop_post by lia. f_equal; lia. }
  rewrite HE' in HE. injection HE as <-.
  rewrite length_app. cbn [List.length].
  replace (Z.of_nat (List.length pre + S (List.length post)) - 1
           - Z.of_nat (List.length pre))
    with (Z.of_nat (List.length post)) by lia.
  rewrite Z.shiftr_div_pow2 by lia. fold P.
  rewrite Z.div_add by lia. rewrite (Z.div_small Epost P) by lia.
  rewrite Z.add_0_l.
  change 2047 with (Z.ones 11). rewrite Z.land_ones by lia.
  change (2 ^ 11) with 2048.
  rewrite Z.add_comm, Z.mod_add by lia.
  rewrite Z.mod_small by lia.
  exact Hnth.
Qed.

(** X9.  The words can be read back from the packed value: the word at
    position [k] of a phrase of known words is the vocabulary word whose
    index is the 11 bits of the value that start [11 * (n - 1 - k)] bits
    from the low end. *)
Theorem bip39Entropy_word_at (ws : list string) (E : Z) (k : nat) (w : string) :
  Forall (fun v => In v wordlist) ws ->
  bip39Entropy wordlist ws = Ok E ->
  nth_error ws k = Some w ->
  nth_error wordlist
    (Z.to_nat
       (Z.land (Z.shiftr E (11 * (Z.of_nat (List.length ws) - 1 - Z.of_nat k)))
               2047))
  = Some w.
Proof. exact (packed_word_at ws E k w). Qed.

(** X10.  Packing loses nothing: two phrases of known words with the same
    number of words and the same packed value are the same phrase. *)
Theorem bip39Entropy_injective (ws1 ws2 : list string) (E : Z) :
  Forall (fun v => In v wordlist) ws1 ->
  Forall (fun v => In v wordlist) ws2 ->
  List.length ws1 = List.length ws2 ->
  bip39Entropy wordlist ws1 = Ok E ->
  bip39Entropy wordlist ws2 = Ok E ->
  ws1 = ws2.
Proof.
  intros H1 H2 Hlen HE1 HE2.
  apply nth_error_ext. intros k.
  destruct (nth_error ws1 k) as [w1|] eqn:Hk1.
  - assert (Hlt : (k < List.length ws2)%nat)
      by (rewrite <- Hlen; apply nth_error_Some; congruence).
    destruct (nth_error ws2 k) as [w2|] eqn:Hk2;
      [|apply nth_error_None in Hk2; lia].
    pose proof (packed_word_at ws1 E k w1 H1 HE1 Hk1) as Ha.
    pose proof (packed_word_at ws2 E k w2 H2 HE2 Hk2) as Hb.
    rewrite Hlen in Ha. congruence.
  - apply nth_error_None in Hk1. symmetry. apply nth_error_None. lia.
Qed.

End EntropyFacts.

(** ** [bip39ChecksumWords], continued *)

Section CompletionFacts.

Variable wordlist : list string.
Hypothesis wordlist_length : List.length wordlist = 2048%nat.
Hypothesis wordlist_distinct : NoDup wordlist.

(** The call on a phrase of [3k - 1] words, for the checksum widths [k] of
    1 to 8 bits. *)
Lemma bip39ChecksumWords_width (ws : list string) (E k : Z) :
  1 <= k <= 8 -> Z.of_nat (List.length ws) = 3 * k - 1 ->
  bip39Entropy wordlist ws = Ok E ->
  bip39ChecksumWords wordlist ws
  = checksumLoop wordlist (Z.to_nat (2 ^ (11 - k))) k (Z.to_nat (4 * k))
      0 (Z.shiftl E (11 - k)) [].
Proof.
  intros Hk Hlen HE. unfold bip39ChecksumWords. rewrite HE. cbn [bind].
  rewrite Hlen.
  replace (3 * k - 1 + 1) with (k * 3) by lia.
  rewrite Z.quot_mul by lia.
  replace (k * 3 * 11 - k) with (4 * k * 8) by lia.
  rewrite Z.quot_mul by lia.
  cbv zeta. unfold Lsh, pow2int.
  replace (0 <=? 11 - k) with true by (symmetry; apply Z.leb_le; lia).
  reflexivity.
Qed.

Lemma width_fits (E k : Z) :
  1 <= k <= 8 -> 0 <= E < 2 ^ (11 * (3 * k - 1)) ->
  (E + 1) * 2 ^ (11 - k) <= 256 ^ Z.of_nat (Z.to_nat (4 * k)).
Proof.
  intros Hk HE. rewrite Z2Nat.id by lia.
  change 256 with (2 ^ 8). rewrite <- Z.pow_mul_r by lia.
  replace (8 * (4 * k)) with (11 * (3 * k - 1) + (11 - k)) by lia.
  rewrite Z.pow_add_r by lia.
  apply Z.mul_le_mono_nonneg_r; [apply Z.pow_nonneg|]; lia.
Qed.

(** Every pass of the enumeration, for every checksum width. *)
Lemma enumeration_width (ws : list string) (k : Z) :
  Forall (fun w => In w wordlist) ws ->
  1 <= k <= 8 -> Z.of_nat (List.length ws) = 3 * k - 1 ->
  exists E l,
    bip39Entropy wordlist ws = Ok E /\
    bip39ChecksumWords wordlist ws = Ok l /\
    Z.of_nat (List.length l) = 2 ^ (11 - k) /\
    forall i, 0 <= i < 2 ^ (11 - k) ->
      exists w,
        nth_error l (Z.to_nat i) = Some w /\
        passOk wordlist k (Z.to_nat (4 * k)) i (Z.shiftl E (11 - k) + i) w.
Proof.
  intros Hknown Hk Hlen.
  destruct (bip39Entropy_known wordlist wordlist_length ws Hknown)
    as (E & HE & HE0 & HEhi).
  rewrite Hlen in HEhi.
  assert (Hpow : 0 < 2 ^ (11 - k)) by (apply Z.pow_pos_nonneg; lia).
  destruct (checksumLoop_from_base wordlist wordlist_length E k
              (Z.to_nat (4 * k)) (Z.to_nat (2 ^ (11 - k))))
    as (l & Hl & Hn & Hall);
    [lia | rewrite Z2Nat.id; lia | exact HE0 | apply width_fits; lia |].
  exists E, l. split; [exact HE|]. split; [|split].
  - now rewrite (bip39ChecksumWords_width ws E k Hk Hlen HE).
  - rewrite Hn, Z2Nat.id; lia.
  - intros i Hi. destruct (Hall (Z.to_nat i) ltac:(lia)) as (w & Hw & Hpass).
    exists w. rewrite Z2Nat.id in Hpass by lia. now split.
Qed.

(** The checksum-bit check on a phrase ending with a known word, in terms
    of the index [idx] of that word: its low [cs] bits against the checksum
    of the entropy its high bits complete. *)
Lemma checksumBitsMatch_last (ws : list string) (E cs : Z) (es : nat)
    (w : string) (idx : Z) :
  bip39Entropy wordlist ws = Ok E ->
  GetWordIndex wordlist w = Some idx ->
  Z.of_nat (List.length (ws ++ [w])) / 3 = cs ->
  Z.to_nat ((Z.of_nat (List.length (ws ++ [w])) * 11 - cs) / 8) = es ->
  0 <= cs <= 11 ->
  checksumBitsMatch wordlist (ws ++ [w])
  = (idx mod 2 ^ cs =? checksumOf cs es (E * 2 ^ (11 - cs) + idx / 2 ^ cs)).
Proof.
  intros HE Hw Hcs Hes Hrange.
  pose proof (GetWordIndex_range wordlist wordlist_length w idx Hw) as Hidx.
  assert (Hpos : 0 < 2 ^ cs) by (apply Z.pow_pos_nonneg; lia).
  unfold checksumBitsMatch.
  unfold bip39Entropy in *. rewrite bip39EntropyLoop_app, HE.
  cbn [bind bip39EntropyLoop]. rewrite Hw. rewrite Hcs, Hes.
  rewrite lor_shiftl_add by (change (2 ^ 11) with 2048; lia).
  change (2 ^ 11) with 2048.
  rewrite (Z.div_mod idx (2 ^ cs)) at 1 2 by lia.
  rewrite (Z.mul_comm (2 ^ cs)).
  destruct (split_packed E (idx / 2 ^ cs) (idx mod 2 ^ cs) cs Hrange
              (Z.mod_pos_bound idx (2 ^ cs) Hpos)) as [-> ->].
  reflexivity.
Qed.

Lemma phrase_sizes (ws : list string) (w : string) (k : Z) :
  Z.of_nat (List.length ws) = 3 * k - 1 ->
  Z.of_nat (List.length (ws ++ [w])) / 3 = k /\
  Z.to_nat ((Z.of_nat (List.length (ws ++ [w])) * 11 - k) / 8)
  = Z.to_nat (4 * k).
Proof.
  intros Hlen. rewrite length_app. cbn [List.length].
  replace (Z.of_nat (List.length ws + 1)) with (k * 3) by lia.
  rewrite Z.div_mul by lia. split; [reflexivity|].
  replace (k * 3 * 11 - k) with (4 * k * 8) by lia.
  now rewrite Z.div_mul by lia.
Qed.

(** The words of the result are the valid completions, all of them. *)
Lemma completions_exact (ws : list string) (k : Z) (l : list string) :
  Forall (fun w => In w wordlist) ws ->
  1 <= k <= 8 -> Z.of_nat (List.length ws) = 3 * k - 1 ->
  bip39ChecksumWords wordlist ws = Ok l ->
  forall w,
    In w l <->
    In w wordlist /\ checksumBitsMatch wordlist (ws ++ [w]) = true.
Proof.
  intros Hknown Hk Hlen Hl w.
  destruct (enumeration_width ws k Hknown Hk Hlen)
    as (E & l' & HE & Hl' & Hn & Hall).
  rewrite Hl in Hl'. injection Hl' as <-.
  destruct (phrase_sizes ws w k Hlen) as (Hcs & Hes).
  assert (Hpos : 0 < 2 ^ k) by (apply Z.pow_pos_nonneg; lia).
  assert (Hpos' : 0 < 2 ^ (11 - k)) by (apply Z.pow_pos_nonneg; lia).
  assert (H2048 : 2048 = 2 ^ (11 - k) * 2 ^ k)
    by (rewrite <- Z.pow_add_r by lia;
        now replace (11 - k + k) with 11 by lia).
  split.
  - intros Hin. apply In_nth_error in Hin. destruct Hin as (j & Hj).
    assert (Hjn : (j < List.length l)%nat)
      by (apply nth_error_Some; congruence).
    destruct (Hall (Z.of_nat j) ltac:(lia)) as (w' & Hw' & Hpass).
    rewrite Nat2Z.id in Hw'. assert (w' = w) by congruence; subst w'.
    split.
    + destruct Hpass as (_ & _ & _ & Hnth). eapply nth_error_In, Hnth.
    + apply (completion_matches wordlist wordlist_length wordlist_distinct
               ws E k (Z.to_nat (4 * k)) (Z.of_nat j) w HE Hcs Hes);
        [lia | exact Hpass].
  - intros (Hin & Hmatch).
    destruct (indexFrom_known wordlist w Hin 0) as (idx & Hidx).
    pose proof (GetWordIndex_range wordlist wordlist_length w idx Hidx)
      as Hrange.
    rewrite (checksumBitsMatch_last ws E k (Z.to_nat (4 * k)) w idx
               HE Hidx Hcs Hes ltac:(lia)) in Hmatch.
    apply Z.eqb_eq in Hmatch.
    assert (Hi : 0 <= idx / 2 ^ k < 2 ^ (11 - k)).
    { split; [apply Z.div_pos; lia|].
      apply Z.div_lt_upper_bound; lia. }
    destruct (Hall (idx / 2 ^ k) Hi) as (w' & Hw' & _ & _ & _ & Hnth).
    destruct (completionIndex_add wordlist wordlist_length k
                (Z.to_nat (4 * k)) (idx / 2 ^ k)
                (Z.shiftl E (11 - k) + idx / 2 ^ k) ltac:(lia))
      as (_ & Hadd & _).
    rewrite Hadd in Hnth.
    rewrite Z.shiftl_mul_pow2 in Hnth by lia.
    rewrite <- Hmatch in Hnth.
    replace (idx / 2 ^ k * 2 ^ k + idx mod 2 ^ k) with idx in Hnth
      by (rewrite (Z.div_mod idx (2 ^ k)) at 1 by lia; ring).
    apply indexFrom_nth_error in Hidx. rewrite Z.sub_0_r in Hidx.
    assert (w' = w) by congruence; subst w'.
    eapply nth_error_In, Hw'.
Qed.

(** X11.  [bip39ChecksumWords] serves every phrase length of the BIP-39
    family, not only the two its caller lets through: for [3k - 1] known
    words, with [k] from 1 to 8, it returns [2^(11 - k)] words. *)
Theorem bip39ChecksumWords_every_width (ws : list string) (k : Z) :
  Forall (fun w => In w wordlist) ws ->
  1 <= k <= 8 -> Z.of_nat (List.length ws) = 3 * k - 1 ->
  exists l,
    bip39ChecksumWords wordlist ws = Ok l /\
    Z.of_nat (List.length l) = 2 ^ (11 - k).
Proof.
  intros Hknown Hk Hlen.
  destruct (enumeration_width ws k Hknown Hk Hlen)
    as (E & l & _ & Hl & Hn & _).
  now exists l.
Qed.

(** X12.  The result of [bip39ChecksumWords] is the set of valid last
    words, no more and no less: for [3k - 1] known words ([k] from 1 to 8,
    so for 11 and 23 words too) a word is in the result exactly when it is
    a vocabulary word that completes the phrase with matching checksum
    bits. *)
Theorem bip39ChecksumWords_exact (ws : list string) (k : Z)
    (l : list string) :
  Forall (fun w => In w wordlist) ws ->
  1 <= k <= 8 -> Z.of_nat (List.length ws) = 3 * k - 1 ->
  bip39ChecksumWords wordlist ws = Ok l ->
  forall w,
    In w l <->
    In w wordlist /\ checksumBitsMatch wordlist (ws ++ [w]) = true.
Proof. exact (completions_exact ws k l). Qed.

(** X13.  No word comes twice in the result of [bip39ChecksumWords] on
    [3k - 1] known words ([k] from 1 to 8). *)
Theorem bip39ChecksumWords_no_repetition (ws : list string) (k : Z)
    (l : list string) :
  Forall (fun w => In w wordlist) ws ->
  1 <= k <= 8 -> Z.of_nat (List.length ws) = 3 * k - 1 ->
  bip39ChecksumWords wordlist ws = Ok l ->
  NoDup l.
Proof.
  intros Hknown Hk Hlen Hl.
  destruct (enumeration_width ws k Hknown Hk Hlen)
    as (E & l' & HE & Hl' & Hn & Hall).
  rewrite Hl in Hl'. injection Hl' as <-.
  assert (Hpos : 0 < 2 ^ k) by (apply Z.pow_pos_nonneg; lia).
  apply NoDup_nth_error. intros i j Hi Hij.
  destruct (Hall (Z.of_nat i) ltac:(lia)) as (wi & Hwi & Hpi).
  rewrite Nat2Z.id in Hwi.
  assert (Hj : (j < List.length l)%nat)
    by (apply nth_error_Some; congruence).
  destruct (Hall (Z.of_nat j) ltac:(lia)) as (wj & Hwj & Hpj).
  rewrite Nat2Z.id in Hwj.
  assert (wj = wi) by congruence; subst wj.
  destruct Hpi as (_ & Hri & _ & Hni). destruct Hpj as (_ & Hrj & _ & Hnj).
  assert (Hsame : Z.to_nat (completionIndex k (Z.to_nat (4 * k)) (Z.of_nat i)
                              (Z.shiftl E (11 - k) + Z.of_nat i))
                  = Z.to_nat (completionIndex k (Z.to_nat (4 * k)) (Z.of_nat j)
                                (Z.shiftl E (11 - k) + Z.of_nat j))).
  { apply (proj1 (NoDup_nth_error wordlist) wordlist_distinct).
    - rewrite wordlist_length. lia.
    - congruence. }
  destruct (completionIndex_add wordlist wordlist_length k (Z.to_nat (4 * k))
              (Z.of_nat i) (Z.shiftl E (11 - k) + Z.of_nat i) ltac:(lia))
    as (Hci & Hai & _).
  destruct (completionIndex_add wordlist wordlist_length k (Z.to_nat (4 * k))
              (Z.of_nat j) (Z.shiftl E (11 - k) + Z.of_nat j) ltac:(lia))
    as (Hcj & Haj & _).
  rewrite Hai, Haj in Hsame. nia.
Qed.

(** With a checksum wider than a byte the shift count [8 - checksumBits] is
    negative: a pass that gets that far panics there. *)
Lemma checkwordIndex_wide_checksum (cs : Z) (es : nat) (i cand : Z) :
  8 < cs -> exists p, checkwordIndex cs es i cand = Panic p.
Proof.
  intros Hcs. unfold checkwordIndex.
  destruct (FillBytes cand es) as [bytes| |p|] eqn:Hfill;
    cbn [bind]; try (unfold FillBytes in Hfill;
                     destruct (cand <? 256 ^ Z.of_nat es); discriminate).
  - destruct (sum256_first bytes) as [-> _]. cbn [bind]. unfold shr.
    replace (8 - cs <? 0) with true by (symmetry; apply Z.ltb_lt; lia).
    now exists NegativeShift.
  - now exists p.
Qed.

(** X14.  [bip39ChecksumWords] depends on its caller for the phrase length:
    on 26 to 34 known words the checksum would be wider than the byte it is
    cut from, and the call panics in its first pass. *)
Theorem bip39ChecksumWords_too_long (ws : list string) :
  Forall (fun w => In w wordlist) ws ->
  (26 <= List.length ws <= 34)%nat ->
  exists p, bip39ChecksumWords wordlist ws = Panic p.
Proof.
  intros Hknown Hlen.
  destruct (bip39Entropy_known wordlist wordlist_length ws Hknown)
    as (E & HE & _).
  unfold bip39ChecksumWords. rewrite HE. cbn [bind]. cbv zeta.
  set (cs := Z.quot (Z.of_nat (List.length ws) + 1) 3).
  assert (Hcs : 9 <= cs <= 11).
  { unfold cs. rewrite Z.quot_div_nonneg by lia.
    assert ((Z.of_nat (List.length ws) + 1) / 3 < 12)
      by (apply Z.div_lt_upper_bound; lia).
    split; [apply Z.div_le_lower_bound|]; lia. }
  unfold Lsh, pow2int.
  replace (0 <=? 11 - cs) with true by (symmetry; apply Z.leb_le; lia).
  cbn [bind].
  assert (Hiter : (0 < Z.to_nat (2 ^ (11 - cs)))%nat).
  { assert (0 < 2 ^ (11 - cs)) by (apply Z.pow_pos_nonneg; lia). lia. }
  destruct (Z.to_nat (2 ^ (11 - cs))) as [|n]; [inversion Hiter|].
  cbn [checksumLoop].
  match goal with
  | |- context [checkwordIndex cs ?es ?i ?cand] =>
      destruct (checkwordIndex_wide_checksum cs es i cand ltac:(lia))
        as (p & ->)
  end.
  now exists p.
Qed.

End CompletionFacts.

(** The vocabulary words fit the sample table. *)
Lemma sample_known_14 :
  Forall (fun w => In w sampleWordlist) (repeat "abc" 14).
Proof. apply allKnownb_sound. vm_compute. reflexivity. Qed.

Lemma sample_known_26 :
  Forall (fun w => In w sampleWordlist) (repeat "abc" 26).
Proof. apply allKnownb_sound. vm_compute. reflexivity. Qed.

Lemma sample_known_pair :
  Forall (fun w => In w sampleWordlist) ["abc"; "bcd"].
Proof. apply allKnownb_sound. vm_compute. reflexivity. Qed.

Lemma bip39Entropy_bound_witness :
  List.length sampleWordlist = 2048%nat /\
  Forall (fun w => In w sampleWordlist) ["abc"; "bcd"] /\
  exists E,
    bip39Entropy sampleWordlist ["abc"; "bcd"] = Ok E /\
    0 <= E < 2 ^ (11 * Z.of_nat (List.length ["abc"; "bcd"])).
Proof.
  split; [reflexivity|]. split; [exact sample_known_pair|].
  exact (bip39Entropy_bound sampleWordlist sampleWordlist_length
           ["abc"; "bcd"] sample_known_pair).
Defined.

Lemma bip39Entropy_app_witness :
  List.length sampleWordlist = 2048%nat /\
  Forall (fun w => In w sampleWordlist) ["abc"; "bcd"] /\
  bip39Entropy sampleWordlist ["bcd"] = Ok 291 /\
  bip39Entropy sampleWordlist ["abc"; "bcd"] = Ok 37155 /\
  bip39Entropy sampleWordlist (["bcd"] ++ ["abc"; "bcd"])
  = Ok (Z.shiftl 291 (11 * Z.of_nat (List.length ["abc"; "bcd"])) + 37155).
Proof.
  split; [reflexivity|]. split; [exact sample_known_pair|].
  split; [reflexivity|]. split; [reflexivity|].
  exact (bip39Entropy_app sampleWordlist sampleWordlist_length
           ["bcd"] ["abc"; "bcd"] 291 37155 sample_known_pair
           eq_refl eq_refl).
Defined.

Lemma bip39Entropy_word_at_witness :
  List.length sampleWordlist = 2048%nat /\
  Forall (fun w => In w sampleWordlist) ["abc"; "bcd"] /\
  bip39Entropy sampleWordlist ["abc"; "bcd"] = Ok 37155 /\
  nth_error ["abc"; "bcd"] 1 = Some "bcd" /\
  nth_error sampleWordlist
    (Z.to_nat
       (Z.land
          (Z.shiftr 37155
             (11 * (Z.of_nat (List.length ["abc"; "bcd"]) - 1 - Z.of_nat 1)))
          2047))
  = Some "bcd".
Proof.
  split; [reflexivity|]. split; [exact sample_known_pair|].
  split; [reflexivity|]. split; [reflexivity|].
  exact (bip39Entropy_word_at sampleWordlist sampleWordlist_length
           ["abc"; "bcd"] 37155 1 "bcd" sample_known_pair eq_refl eq_refl).
Defined.

Lemma bip39Entropy_injective_witness :
  List.length sampleWordlist = 2048%nat /\
  Forall (fun w => In w sampleWordlist) ["abc"; "bcd"] /\
  bip39Entropy sampleWordlist ["abc"; "bcd"] = Ok 37155 /\
  ["abc"; "bcd"] = ["abc"; "bcd"].
Proof.
  split; [reflexivity|]. split; [exact sample_known_pair|].
  split; [reflexivity|].
  exact (bip39Entropy_injective sampleWordlist sampleWordlist_length
           ["abc"; "bcd"] ["abc"; "bcd"] 37155 sample_known_pair
           sample_known_pair eq_refl eq_refl eq_refl).
Defined.

Lemma bip39ChecksumWords_every_width_witness :
  List.length sampleWordlist = 2048%nat /\
  Forall (fun w => In w sampleWordlist) (repeat "abc" 14) /\
  1 <= 5 <= 8 /\
  Z.of_nat (List.length (repeat "abc" 14)) = 3 * 5 - 1 /\
  exists l,
    bip39ChecksumWords sampleWordlist (repeat "abc" 14) = Ok l /\
    Z.of_nat (List.length l) = 2 ^ (11 - 5).
Proof.
  split; [reflexivity|]. split; [exact sample_known_14|].
  split; [lia|]. split; [reflexivity|].
  exact (bip39ChecksumWords_every_width sampleWordlist sampleWordlist_length
           (repeat "abc" 14) 5 sample_known_14 ltac:(lia) eq_refl).
Defined.

Lemma sample_completions_23 :
  bip39ChecksumWords sampleWordlist (repeat "aaa" 23)
  = Ok ["agg"; "bom"; "cjc"; "dnj"; "eod"; "fjg"; "gnb"; "hei"].
Proof. vm_compute. reflexivity. Qed.

Lemma sample_known_23_zero :
  Forall (fun w => In w sampleWordlist) (repeat "aaa" 23).
Proof. apply allKnownb_sound. vm_compute. reflexivity. Qed.

Lemma bip39ChecksumWords_exact_witness :
  List.length sampleWordlist = 2048%nat /\
  NoDup sampleWordlist /\
  Forall (fun w => In w sampleWordlist) (repeat "aaa" 23) /\
  1 <= 8 <= 8 /\
  Z.of_nat (List.length (repeat "aaa" 23)) = 3 * 8 - 1 /\
  bip39ChecksumWords sampleWordlist (repeat "aaa" 23)
  = Ok ["agg"; "bom"; "cjc"; "dnj"; "eod"; "fjg"; "gnb"; "hei"] /\
  forall w,
    In w ["agg"; "bom"; "cjc"; "dnj"; "eod"; "fjg"; "gnb"; "hei"] <->
    In w sampleWordlist /\
    checksumBitsMatch sampleWordlist (repeat "aaa" 23 ++ [w]) = true.
Proof.
  split; [reflexivity|]. split; [exact sampleWordlist_distinct|].
  split; [exact sample_known_23_zero|].
  split; [lia|]. split; [reflexivity|]. split; [exact sample_completions_23|].
  exact (bip39ChecksumWords_exact sampleWordlist sampleWordlist_length
           sampleWordlist_distinct (repeat "aaa" 23) 8 _
           sample_known_23_zero ltac:(lia) eq_refl sample_completions_23).
Defined.

Lemma bip39ChecksumWords_no_repetition_witness :
  List.length sampleWordlist = 2048%nat /\
  NoDup sampleWordlist /\
  Forall (fun w => In w sampleWordlist) (repeat "aaa" 23) /\
  1 <= 8 <= 8 /\
  Z.of_nat (List.length (repeat "aaa" 23)) = 3 * 8 - 1 /\
  bip39ChecksumWords sampleWordlist (repeat "aaa" 23)
  = Ok ["agg"; "bom"; "cjc"; "dnj"; "eod"; "fjg"; "gnb"; "hei"] /\
  NoDup ["agg"; "bom"; "cjc"; "dnj"; "eod"; "fjg"; "gnb"; "hei"].
Proof.
  split; [reflexivity|]. split; [exact sampleWordlist_distinct|].
  split; [exact sample_known_23_zero|].
  split; [lia|]. split; [reflexivity|]. split; [exact sample_completions_23|].
  exact (bip39ChecksumWords_no_repetition sampleWordlist
           sampleWordlist_length sampleWordlist_distinct
           (repeat "aaa" 23) 8 _
           sample_known_23_zero ltac:(lia) eq_refl sample_completions_23).
Defined.

Lemma bip39ChecksumWords_too_long_witness :
  List.length sampleWordlist = 2048%nat /\
  Forall (fun w => In w sampleWordlist) (repeat "abc" 26) /\
  (26 <= List.length (repeat "abc" 26) <= 34)%nat /\
  exists p, bip39ChecksumWords sampleWordlist (repeat "abc" 26) = Panic p.
Proof.
  split; [reflexivity|]. split; [exact sample_known_26|].
  split; [simpl; lia|].
  exact (bip39ChecksumWords_too_long sampleWordlist sampleWordlist_length
           (repeat "abc" 26) sample_known_26 ltac:(simpl; lia)).
Defined.

Example bip39ChecksumWords_sample_26 :
  bip39ChecksumWords sampleWordlist (repeat "abc" 26) = Panic NegativeShift /\
  bip39ChecksumWords sampleWordlist (repeat "hpp" 27) = Panic BufferTooSmall.
Proof. vm_compute. split; reflexivity. Qed.

(** ** Reading a seed phrase *)

Lemma reSpace_space : reSpace space = true.
Proof. reflexivity. Qed.

Lemma collapseFrom_spaces (s : string) :
  forall inRun c,
    In c (list_ascii_of_string (collapseFrom inRun s)) ->
    reSpace c = true -> c = space.
Proof.
  induction s as [|a s IH]; intros inRun c; cbn [collapseFrom].
  - intros [].
  - destruct (reSpace a) eqn:Ea.
    + destruct inRun; [apply IH|].
      cbn [list_ascii_of_string]. intros [<- | Hin] Hc;
        [reflexivity | now apply (IH true)].
    + cbn [list_ascii_of_string]. intros [<- | Hin] Hc;
        [congruence | now apply (IH false)].
Qed.

(** After a run the text does not go on with a space, and nowhere are
    there two spaces in a row. *)
Lemma collapseFrom_single (s : string) :
  HasPrefix (collapseFrom true s) " " = false /\
  forall inRun, Contains (collapseFrom inRun s) "  " = false.
Proof.
  induction s as [|a s (IHp & IHc)]; [split; [|intros]; reflexivity|].
  assert (Hne : reSpace a = false -> Ascii.eqb " " a = false).
  { intros Ha. apply Ascii.eqb_neq. intros <-. discriminate. }
  split.
  - cbn [collapseFrom]. destruct (reSpace a) eqn:Ea; [exact IHp|].
    cbn [HasPrefix]. now rewrite (Hne eq_refl).
  - intros inRun. cbn [collapseFrom]. destruct (reSpace a) eqn:Ea.
    + destruct inRun; [apply IHc|].
      cbn [Contains HasPrefix]. rewrite IHp, (IHc true).
      now rewrite andb_false_r.
    + cbn [Contains HasPrefix]. rewrite (Hne eq_refl), (IHc false).
      reflexivity.
Qed.

(** The replacement changes nothing in a text that is single-spaced
    already. *)
Lemma collapseFrom_fixed (s : string) :
  (forall c, In c (list_ascii_of_string s) -> reSpace c = true -> c = space) ->
  Contains s "  " = false ->
  collapseFrom false s = s /\
  (HasPrefix s " " = false -> collapseFrom true s = s).
Proof.
  induction s as [|a s IH]; intros Hsp Hdbl; [split; reflexivity|].
  cbn [Contains HasPrefix] in Hdbl.
  apply orb_false_iff in Hdbl. destruct Hdbl as (Hhere & Hrest).
  destruct IH as (IHf & IHt);
    [intros c Hc; apply Hsp; now right | exact Hrest|].
  cbn [collapseFrom]. destruct (reSpace a) eqn:Ea.
  - assert (a = space) by (apply Hsp; [now left | exact Ea]); subst a.
    change (Ascii.eqb " " space) with true in Hhere. cbn [andb] in Hhere.
    split.
    + now rewrite (IHt Hhere).
    + intros Hp. exfalso. revert Hp. clear.
      destruct s; discriminate.
  - split; intros; now rewrite IHf.
Qed.

Section CommandFacts.

Variable wordlist : list string.
Hypothesis wordlist_length : List.length wordlist = 2048%nat.
Hypothesis wordlist_distinct : NoDup wordlist.

Variable TrimSpace : string -> string.
Variable Fields : string -> list string.
Variable IsMnemonicValid : string -> bool.
Variable Intn : nat -> nat.

(** X15.  A seed phrase read from the auxiliary source is on a single
    line with single spaces: it holds no tab, newline, form feed or
    carriage return, and nowhere two spaces in a row. *)
Theorem readStdinSeedMnemonic_single_spaced (src : ByteSource)
    (mnemonic : string) :
  readStdinSeedMnemonic TrimSpace src = inr mnemonic ->
  singleSpaced mnemonic.
Proof.
  unfold readStdinSeedMnemonic.
  destruct (readFailure src); [discriminate|].
  intros H; injection H as <-. unfold ReplaceAllWhitespace. split.
  - apply collapseFrom_spaces.
  - apply collapseFrom_single.
Qed.

(** X16.  Reading changes no text that is single-spaced already (and that
    [strings.TrimSpace] leaves alone): the mnemonic is the content. *)
Theorem readStdinSeedMnemonic_fixed (text : string) :
  singleSpaced text -> TrimSpace text = text ->
  readStdinSeedMnemonic TrimSpace (mkBytes text None) = inr text.
Proof.
  intros (Hsp & Hdbl) Htrim. unfold readStdinSeedMnemonic. cbn.
  rewrite Htrim. unfold ReplaceAllWhitespace.
  now rewrite (proj1 (collapseFrom_fixed text Hsp Hdbl)).
Qed.

(** ** The [bc] command *)

Lemma first_unknown (ws : list string) :
  Exists (fun w => ~ In w wordlist) ws ->
  exists pre w post,
    ws = pre ++ w :: post /\
    Forall (fun v => In v wordlist) pre /\ ~ In w wordlist.
Proof.
  induction ws as [|v ws IH]; intros Hex; [inversion Hex|].
  destruct (in_dec string_dec v wordlist) as [Hv | Hv].
  - inversion Hex as [? ? Hbad | ? ? Hlater]; subst; [contradiction|].
    destruct (IH Hlater) as (pre & w & post & -> & Hpre & Hw).
    exists (v :: pre), w, post. repeat split; [now constructor | exact Hw].
  - exists [], v, ws. repeat split; [constructor | exact Hv].
Qed.

(** On 11 or 23 words [bip39ChecksumWords] gives its words, at least one,
    or the error of an unknown word. *)
Lemma checksumWords_outcome (ws : list string) :
  List.length ws = 11%nat \/ List.length ws = 23%nat ->
  (exists l, bip39ChecksumWords wordlist ws = Ok l /\
             (0 < List.length l)%nat /\ Forall (fun w => In w wordlist) ws) \/
  (exists e, bip39ChecksumWords wordlist ws = Err e).
Proof.
  intros Hlen.
  destruct (Forall_Exists_dec (fun w => In w wordlist)
              (fun w => in_dec string_dec w wordlist) ws) as [Hknown | Hex].
  - left.
    assert (Hk : exists k, 1 <= k <= 8 /\
                   Z.of_nat (List.length ws) = 3 * k - 1)
      by (destruct Hlen as [-> | ->]; [exists 4 | exists 8]; split;
          [lia | reflexivity | lia | reflexivity]).
    destruct Hk as (k & Hk & Hlenk).
    destruct (enumeration_width wordlist wordlist_length ws k Hknown Hk Hlenk)
      as (E & l & _ & Hl & Hn & _).
    exists l. split; [exact Hl|]. split; [|exact Hknown].
    assert (0 < 2 ^ (11 - k)) by (apply Z.pow_pos_nonneg; lia). lia.
  - right. destruct (first_unknown ws Hex) as (pre & w & post & -> & Hpre & Hw).
    exists (ErrInvalidWord w).
    unfold bip39ChecksumWords, bip39Entropy.
    now rewrite (bip39EntropyLoop_unknown wordlist pre post w Hpre Hw).
Qed.

Lemma outputLoop_map (word : bool) (ws l : list string) :
  forall out,
    outputLoop word ws l out
    = out ++ map (fun w => if word then w else seedWith ws w) l.
Proof.
  induction l as [|w l IH]; intros out; cbn [outputLoop map].
  - now rewrite app_nil_r.
  - now rewrite IH, <- app_assoc.
Qed.

Lemma firstInvalid_none (ws l : list string) :
  Forall (fun w => IsMnemonicValid (seedWith ws w) = true) l ->
  firstInvalid IsMnemonicValid ws l = None.
Proof.
  induction 1 as [|w l Hw _ IH]; cbn [firstInvalid]; [reflexivity|].
  now rewrite Hw.
Qed.

Lemma length_guard (ws : list string) :
  List.length ws = 11%nat \/ List.length ws = 23%nat ->
  (List.length ws =? 0)%nat = false /\
  negb (List.length ws =? 11)%nat && negb (List.length ws =? 23)%nat = false.
Proof. intros [-> | ->]; split; reflexivity. Qed.

Lemma length_guard_inv (ws : list string) :
  negb (List.length ws =? 11)%nat && negb (List.length ws =? 23)%nat = false ->
  List.length ws = 11%nat \/ List.length ws = 23%nat.
Proof.
  intros H. apply andb_false_iff in H.
  destruct H as [H | H]; apply negb_false_iff, Nat.eqb_eq in H; tauto.
Qed.

(** X17.  The [bc] command never panics, whatever its flags, its arguments
    and the content of its reader: it returns, with or without an error.
    The length check keeps [bip39ChecksumWords] to phrases of 11 and 23
    words, where its lookups are in range, and the drawn position is within
    the words it returned. *)
Theorem BipCheckwordRun_returns (cmd : BipCheckwordCmd) (src : ByteSource) :
  (forall n, (0 < n)%nat -> (Intn n < n)%nat) ->
  exists err,
    ending (BipCheckwordRun wordlist TrimSpace Fields IsMnemonicValid Intn
              cmd src)
    = Returned err.
Proof.
  intros Hdraw. unfold BipCheckwordRun.
  destruct (readSeedMnemonic TrimSpace src (PartialMnemonic cmd))
    as [e | mnemonic]; [now eexists|].
  cbv zeta. set (ws := Fields mnemonic).
  destruct (List.length ws =? 0)%nat; [now eexists|].
  destruct (negb (List.length ws =? 11)%nat && negb (List.length ws =? 23)%nat)
    eqn:Hguard; [now eexists|].
  apply length_guard_inv in Hguard.
  destruct (checksumWords_outcome ws Hguard)
    as [(l & -> & Hpos & _) | (e & ->)]; [|now eexists].
  destruct (Multi cmd).
  - destruct (firstInvalid IsMnemonicValid ws l); now eexists.
  - assert (Hi : exists i,
               (if Deterministic cmd then Some 0%nat
                else if (List.length l =? 0)%nat then None
                else Some (Intn (List.length l))) = Some i /\
               (i < List.length l)%nat).
    { destruct (Deterministic cmd); [now exists 0%nat|].
      replace (List.length l =? 0)%nat with false
        by (symmetry; apply Nat.eqb_neq; lia).
      exists (Intn (List.length l)). split; [reflexivity | now apply Hdraw]. }
    destruct Hi as (i & -> & Hi).
    destruct (index_in_range l (Z.of_nat i) ltac:(lia)) as (cw & -> & _).
    destruct (IsMnemonicValid (seedWith ws cw)); now eexists.
Qed.

Lemma completions_pass (ws l : list string) :
  validityIsChecksum wordlist IsMnemonicValid ->
  Forall (fun w => In w wordlist) ws ->
  List.length ws = 11%nat \/ List.length ws = 23%nat ->
  bip39ChecksumWords wordlist ws = Ok l ->
  Forall (fun w => IsMnemonicValid (seedWith ws w) = true) l.
Proof.
  intros Hvalid Hknown Hlen Hl.
  assert (Hk : exists k, 1 <= k <= 8 /\
                 Z.of_nat (List.length ws) = 3 * k - 1)
    by (destruct Hlen as [-> | ->]; [exists 4 | exists 8]; split;
        [lia | reflexivity | lia | reflexivity]).
  destruct Hk as (k & Hk & Hlenk).
  apply Forall_forall. intros w Hw.
  apply (completions_exact wordlist wordlist_length wordlist_distinct
           ws k l Hknown Hk Hlenk Hl) in Hw.
  destruct Hw as (Hin & Hmatch).
  unfold seedWith. rewrite Hvalid; [exact Hmatch | |].
  - apply Forall_app; split; [exact Hknown | now constructor].
  - rewrite length_app. cbn [List.length]. lia.
Qed.

(** X18.  With [Multi], on a phrase of 11 or 23 known words, the [bc]
    command succeeds and writes one line for every word of
    [bip39ChecksumWords], in its order: the word alone with [Word], the
    completed phrase otherwise.  The error for a generated phrase that
    does not validate stays unused. *)
Theorem BipCheckwordRun_multi (cmd : BipCheckwordCmd) (src : ByteSource)
    (mnemonic : string) :
  validityIsChecksum wordlist IsMnemonicValid ->
  readSeedMnemonic TrimSpace src (PartialMnemonic cmd) = inr mnemonic ->
  Forall (fun w => In w wordlist) (Fields mnemonic) ->
  List.length (Fields mnemonic) = 11%nat \/
  List.length (Fields mnemonic) = 23%nat ->
  Multi cmd = true ->
  exists l,
    bip39ChecksumWords wordlist (Fields mnemonic) = Ok l /\
    BipCheckwordRun wordlist TrimSpace Fields IsMnemonicValid Intn cmd src
    = mkRun (map (fun w => if Word cmd then w
                           else Join (Fields mnemonic ++ [w]) " ") l)
            (Returned None).
Proof.
  intros Hvalid Hread Hknown Hlen Hmulti.
  destruct (checksumWords_outcome (Fields mnemonic) Hlen)
    as [(l & Hl & _ & _) | (e & He)].
  - exists l. split; [exact Hl|].
    unfold BipCheckwordRun. rewrite Hread. cbv zeta.
    destruct (length_guard _ Hlen) as (-> & ->).
    rewrite Hl, Hmulti.
    rewrite (firstInvalid_none _ _
               (completions_pass _ _ Hvalid Hknown Hlen Hl)).
    now rewrite outputLoop_map.
  - exfalso.
    destruct (bip39Entropy_known wordlist wordlist_length _ Hknown)
      as (E & HE & _).
    unfold bip39ChecksumWords in He. rewrite HE in He. cbn [bind] in He.
    assert (Hk : exists k, 1 <= k <= 8 /\
                   Z.of_nat (List.length (Fields mnemonic)) = 3 * k - 1)
      by (destruct Hlen as [-> | ->]; [exists 4 | exists 8]; split;
          [lia | reflexivity | lia | reflexivity]).
    destruct Hk as (k & Hk & Hlenk).
    destruct (enumeration_width wordlist wordlist_length _ k Hknown Hk Hlenk)
      as (E' & l & _ & Hl & _).
    unfold bip39ChecksumWords in Hl. rewrite HE in Hl. cbn [bind] in Hl.
    congruence.
Qed.

(** X19.  Without [Multi], on a phrase of 11 or 23 known words, the [bc]
    command succeeds and writes exactly one line, made with the word of
    [bip39ChecksumWords] at the drawn position: the first word with
    [Deterministic], the word at [rand.Intn(len(checksumWords))]
    otherwise. *)
Theorem BipCheckwordRun_single (cmd : BipCheckwordCmd) (src : ByteSource)
    (mnemonic : string) :
  validityIsChecksum wordlist IsMnemonicValid ->
  (forall n, (0 < n)%nat -> (Intn n < n)%nat) ->
  readSeedMnemonic TrimSpace src (PartialMnemonic cmd) = inr mnemonic ->
  Forall (fun w => In w wordlist) (Fields mnemonic) ->
  List.length (Fields mnemonic) = 11%nat \/
  List.length (Fields mnemonic) = 23%nat ->
  Multi cmd = false ->
  exists l checkword,
    bip39ChecksumWords wordlist (Fields mnemonic) = Ok l /\
    nth_error l (if Deterministic cmd then 0%nat else Intn (List.length l))
    = Some checkword /\
    BipCheckwordRun wordlist TrimSpace Fields IsMnemonicValid Intn cmd src
    = mkRun [if Word cmd then checkword
             else Join (Fields mnemonic ++ [checkword]) " "]
            (Returned None).
Proof.
  intros Hvalid Hdraw Hread Hknown Hlen Hmulti.
  assert (Hk : exists k, 1 <= k <= 8 /\
                 Z.of_nat (List.length (Fields mnemonic)) = 3 * k - 1)
    by (destruct Hlen as [-> | ->]; [exists 4 | exists 8]; split;
        [lia | reflexivity | lia | reflexivity]).
  destruct Hk as (k & Hk & Hlenk).
  destruct (enumeration_width wordlist wordlist_length _ k Hknown Hk Hlenk)
    as (E & l & _ & Hl & Hn & _).
  assert (Hpos : (0 < List.length l)%nat).
  { assert (0 < 2 ^ (11 - k)) by (apply Z.pow_pos_nonneg; lia). lia. }
  set (i := if Deterministic cmd then 0%nat else Intn (List.length l)).
  assert (Hi : (i < List.length l)%nat)
    by (unfold i; destruct (Deterministic cmd); [exact Hpos | now apply Hdraw]).
  destruct (index_in_range l (Z.of_nat i) ltac:(lia)) as (cw & Hidx & Hnth).
  rewrite Nat2Z.id in Hnth.
  exists l, cw. split; [exact Hl|]. split; [exact Hnth|].
  unfold BipCheckwordRun. rewrite Hread. cbv zeta.
  destruct (length_guard _ Hlen) as (-> & ->).
  rewrite Hl, Hmulti.
  replace (if Deterministic cmd then Some 0%nat
           else if (List.length l =? 0)%nat then None
           else Some (Intn (List.length l)))
    with (Some i).
  - rewrite Hidx.
    pose proof (completions_pass _ _ Hvalid Hknown Hlen Hl) as Hpass.
    rewrite Forall_forall in Hpass.
    rewrite (Hpass cw (nth_error_In _ _ Hnth)). reflexivity.
  - unfold i. destruct (Deterministic cmd); [reflexivity|].
    replace (List.length l =? 0)%nat with false
      by (symmetry; apply Nat.eqb_neq; lia).
    reflexivity.
Qed.

End CommandFacts.

(** ** Running the command *)

Lemma allKnownb_complete (vocabulary words : list string) :
  Forall (fun w => In w vocabulary) words ->
  allKnownb vocabulary words = true.
Proof.
  intros H. unfold allKnownb. apply forallb_forall. intros w Hw.
  rewrite Forall_forall in H. apply existsb_exists.
  exists w. split; [now apply H | apply String.eqb_refl].
Qed.

Lemma sample_spaceFree (w : string) : In w sampleWordlist -> spaceFree w.
Proof.
  assert (H : forallb
                (fun v => forallb (fun c => negb (Ascii.eqb c space))
                            (list_ascii_of_string v))
                sampleWordlist = true) by (vm_compute; reflexivity).
  rewrite forallb_forall in H. intros Hw c Hc.
  specialize (H w Hw). rewrite forallb_forall in H. specialize (H c Hc).
  apply negb_true_iff, Ascii.eqb_neq in H. exact H.
Qed.

Lemma sample_validity : validityIsChecksum sampleWordlist sampleIsValid.
Proof.
  intros phrase Hknown Hlen. unfold sampleIsValid.
  rewrite SplitSpace_Join.
  - now rewrite (allKnownb_complete _ _ Hknown).
  - destruct phrase; [destruct Hlen; discriminate | discriminate].
  - rewrite Forall_forall in *. intros w Hw. now apply sample_spaceFree, Hknown.
Qed.

Lemma pred_draw (n : nat) : (0 < n)%nat -> (Nat.pred n < n)%nat.
Proof. lia. Qed.

Lemma sample_fields_23 :
  asciiFields (Join (repeat "aaa" 23) " ") = repeat "aaa" 23.
Proof. vm_compute. reflexivity. Qed.

Lemma sample_fields_known :
  Forall (fun w => In w sampleWordlist)
    (asciiFields (Join (repeat "aaa" 23) " ")).
Proof. apply allKnownb_sound. vm_compute. reflexivity. Qed.

Lemma readStdinSeedMnemonic_single_spaced_witness :
  readStdinSeedMnemonic asciiTrimSpace
    (mkBytes (String "009" " alpha   beta ") None) = inr "alpha beta" /\
  singleSpaced "alpha beta".
Proof.
  split; [reflexivity|].
  exact (readStdinSeedMnemonic_single_spaced asciiTrimSpace
           (mkBytes (String "009" " alpha   beta ") None) "alpha beta"
           eq_refl).
Defined.

Lemma single_spaced_sample : singleSpaced "alpha beta".
Proof.
  split; [|reflexivity].
  intros c Hc Hsp. cbn in Hc.
  repeat (destruct Hc as [<- | Hc]; [first [reflexivity | discriminate]|]).
  destruct Hc.
Qed.

Lemma readStdinSeedMnemonic_fixed_witness :
  singleSpaced "alpha beta" /\
  asciiTrimSpace "alpha beta" = "alpha beta" /\
  readStdinSeedMnemonic asciiTrimSpace (mkBytes "alpha beta" None)
  = inr "alpha beta".
Proof.
  split; [exact single_spaced_sample|]. split; [reflexivity|].
  exact (readStdinSeedMnemonic_fixed asciiTrimSpace "alpha beta"
           single_spaced_sample eq_refl).
Defined.

Lemma BipCheckwordRun_returns_witness :
  List.length sampleWordlist = 2048%nat /\
  (forall n, (0 < n)%nat -> (Nat.pred n < n)%nat) /\
  exists err,
    ending (BipCheckwordRun sampleWordlist asciiTrimSpace asciiFields
              sampleIsValid Nat.pred
              (mkBipCheckword false true false [])
              (mkBytes (Join (repeat "aaa" 23) " ") None))
    = Returned err.
Proof.
  split; [reflexivity|]. split; [exact pred_draw|].
  exact (BipCheckwordRun_returns sampleWordlist sampleWordlist_length
           asciiTrimSpace asciiFields sampleIsValid Nat.pred
           (mkBipCheckword false true false [])
           (mkBytes (Join (repeat "aaa" 23) " ") None) pred_draw).
Defined.

Lemma BipCheckwordRun_multi_witness :
  List.length sampleWordlist = 2048%nat /\
  NoDup sampleWordlist /\
  validityIsChecksum sampleWordlist sampleIsValid /\
  exists l,
    bip39ChecksumWords sampleWordlist
      (asciiFields (Join (repeat "aaa" 23) " ")) = Ok l /\
    BipCheckwordRun sampleWordlist asciiTrimSpace asciiFields sampleIsValid
      Nat.pred (mkBipCheckword true true false (repeat "aaa" 23))
      (mkBytes "" None)
    = mkRun (map (fun w => if true then w
                           else Join (asciiFields (Join (repeat "aaa" 23) " ")
                                        ++ [w]) " ") l)
            (Returned None).
Proof.
  split; [reflexivity|]. split; [exact sampleWordlist_distinct|].
  split; [exact sample_validity|].
  apply (BipCheckwordRun_multi sampleWordlist sampleWordlist_length
           sampleWordlist_distinct asciiTrimSpace asciiFields sampleIsValid
           Nat.pred (mkBipCheckword true true false (repeat "aaa" 23))
           (mkBytes "" None) (Join (repeat "aaa" 23) " ")
           sample_validity eq_refl sample_fields_known).
  - right. rewrite sample_fields_23. reflexivity.
  - reflexivity.
Defined.

Lemma BipCheckwordRun_single_witness :
  List.length sampleWordlist = 2048%nat /\
  NoDup sampleWordlist /\
  validityIsChecksum sampleWordlist sampleIsValid /\
  (forall n, (0 < n)%nat -> (Nat.pred n < n)%nat) /\
  exists l checkword,
    bip39ChecksumWords sampleWordlist
      (asciiFields (Join (repeat "aaa" 23) " ")) = Ok l /\
    nth_error l (if true then 0%nat else Nat.pred (List.length l))
    = Some checkword /\
    BipCheckwordRun sampleWordlist asciiTrimSpace asciiFields sampleIsValid
      Nat.pred (mkBipCheckword false false true (repeat "aaa" 23))
      (mkBytes "" None)
    = mkRun [if false then checkword
             else Join (asciiFields (Join (repeat "aaa" 23) " ")
                          ++ [checkword]) " "]
            (Returned None).
Proof.
  split; [reflexivity|]. split; [exact sampleWordlist_distinct|].
  split; [exact sample_validity|]. split; [exact pred_draw|].
  apply (BipCheckwordRun_single sampleWordlist sampleWordlist_length
           sampleWordlist_distinct asciiTrimSpace asciiFields sampleIsValid
           Nat.pred (mkBipCheckword false false true (repeat "aaa" 23))
           (mkBytes "" None) (Join (repeat "aaa" 23) " ")
           sample_validity pred_draw eq_refl sample_fields_known).
  - right. rewrite sample_fields_23. reflexivity.
  - reflexivity.
Defined.

(** The command on the sample table: all the last words of twenty-three
    times the first word, then the first of them alone. *)
Example BipCheckwordRun_sample :
  BipCheckwordRun sampleWordlist asciiTrimSpace asciiFields sampleIsValid
    Nat.pred (mkBipCheckword true true false (repeat "aaa" 23))
    (mkBytes "" None)
  = mkRun ["agg"; "bom"; "cjc"; "dnj"; "eod"; "fjg"; "gnb"; "hei"]
          (Returned None) /\
  BipCheckwordRun sampleWordlist asciiTrimSpace asciiFields sampleIsValid
    Nat.pred (mkBipCheckword false true true [])
    (mkBytes (Join (repeat "aaa" 23) " ") None)
  = mkRun ["agg"] (Returned None) /\
  BipCheckwordRun sampleWordlist asciiTrimSpace asciiFields sampleIsValid
    Nat.pred (mkBipCheckword false true true (repeat "aaa" 22))
    (mkBytes "" None)
  = mkRun [] (Returned (Some (ErrSeedLength 22))).
Proof. vm_compute. repeat split. Qed.
